(** * fastdownloader: range partitioning, probing, fetching and reassembly

    A shallow embedding of [fastdownloader.go].  Unsigned 64-bit values are
    integers in [Z] with the wrap-around of Go's [uint64] written out; the
    file system is a finite map from paths to contents; panics are a result
    of their own next to returned errors. *)

From Stdlib Require Import ZArith Lia List Ascii String Bool.
From stdpp Require Import base tactics option numbers list strings gmap pretty.

Import ListNotations.
Local Open Scope Z_scope.

(** ** Machine integers *)

Definition u64 (z : Z) : Z := z mod 2 ^ 64.

(** Go's [int] on a 64-bit target: two's complement wrap-around. *)
Definition int64 (z : Z) : Z := (z + 2 ^ 63) mod 2 ^ 64 - 2 ^ 63.

Definition MaxUint64 : Z := 2 ^ 64 - 1.

(** ** The range partitioner ([batchGenerator]) *)

Module Partitioner.

(** The variables the returned closure captures.  The mutex [m] only
    serialises calls; one call is one [next] step. *)
Record generator := Generator {
  contentLength : Z;
  batchSize : Z;
  start : Z
}.

(** [batchGenerator contentLength totalBatches].  The division panics
    (integer divide by zero) when [totalBatches] is 0: [None]. *)
Definition batchGenerator (contentLength totalBatches : Z) : option generator :=
  if totalBatches =? 0 then None
  else Some {| contentLength := contentLength;
               batchSize := contentLength / totalBatches;
               start := 0 |}.

(** The guard of the closure: the cursor reached the content length. *)
Definition exhausted (g : generator) : bool := contentLength g <=? start g.

(** One call of the closure: the generator afterwards and the pair returned. *)
Definition next (g : generator) : generator * (Z * Z) :=
  if contentLength g <=? start g then (g, (0, 0))
  else
    let stop := u64 (start g + batchSize g) in
    let start' := u64 (start g + batchSize g) in
    let stop := if contentLength g <? stop then contentLength g else stop in
    ({| contentLength := contentLength g;
        batchSize := batchSize g;
        start := start' |},
     (u64 (start' - batchSize g), u64 (stop - 1))).

(** The pairs returned by the calls made before the guard first fires.
    [None]: the guard did not fire within [fuel] calls. *)
Fixpoint emitted (fuel : nat) (g : generator) : option (list (Z * Z)) :=
  match fuel with
  | O => None
  | S fuel' =>
      if exhausted g then Some []
      else
        let '(g', r) := next g in
        option_map (cons r) (emitted fuel' g')
  end.

(** The results of the first [n] calls, whatever they are. *)
Fixpoint calls (n : nat) (g : generator) : list (Z * Z) :=
  match n with
  | O => []
  | S n' => let '(g', r) := next g in r :: calls n' g'
  end.

(** The generator after [n] calls. *)
Fixpoint after (n : nat) (g : generator) : generator :=
  match n with
  | O => g
  | S n' => after n' (fst (next g))
  end.

Definition partition (fuel : nat) (contentLength totalBatches : Z)
  : option (list (Z * Z)) :=
  match batchGenerator contentLength totalBatches with
  | None => None
  | Some g => emitted fuel g
  end.

(** Number of bytes of an inclusive range. *)
Definition size (r : Z * Z) : Z := snd r - fst r + 1.

(** [covers lo rs hi]: the inclusive ranges [rs], in order, tile [lo, hi):
    the first starts at [lo], none is empty, each starts right after the
    previous one stops, and the last stops at [hi - 1]. *)
Fixpoint covers (lo : Z) (rs : list (Z * Z)) (hi : Z) : Prop :=
  match rs with
  | [] => lo = hi
  | (a, b) :: rs' => a = lo /\ a <= b /\ covers (b + 1) rs' hi
  end.

(** How many of the ranges contain the byte offset [x]. *)
Definition hits (x : Z) (rs : list (Z * Z)) : nat :=
  length (List.filter (fun r => (fst r <=? x) && (x <=? snd r)) rs).

End Partitioner.

(** ** Errors and results *)

(** Go [error] values, by origin.  [Wrap] is [fmt.Errorf] with [%w]. *)
Inductive error :=
  | ErrNoParallelDownload
  | ErrSyntax
  | ErrRange
  | ErrURL (msg : string)
  | ErrMime (msg : string)
  | ErrTransport (msg : string)
  | ErrIO (msg : string)
  | ErrNotExist (path : string)
  | ErrDivideByZero
  | Wrap (msg : string) (e : error).

(** ** The pieces of Go's library the program calls *)

Module Go.

Definition isDigit (c : ascii) : bool :=
  let n := nat_of_ascii c in (48 <=? n)%nat && (n <=? 57)%nat.

Definition digitVal (c : ascii) : Z := Z.of_nat (nat_of_ascii c) - 48.

(** The loop of [strconv.ParseUint] for base 10 and bit size 64: [n] is the
    value read so far; [cutoff] is [maxUint64 / 10 + 1]. *)
Fixpoint parseUintFrom (s : string) (n : Z) : Z * option error :=
  match s with
  | EmptyString => (n, None)
  | String c s' =>
      if isDigit c then
        if MaxUint64 / 10 + 1 <=? n then (MaxUint64, Some ErrRange)
        else
          let n1 := n * 10 + digitVal c in
          if MaxUint64 <? n1 then (MaxUint64, Some ErrRange)
          else parseUintFrom s' n1
      else (0, Some ErrSyntax)
  end.

(** [strconv.ParseUint(s, 10, 64)]: the value and the error, as Go returns
    both. *)
Definition ParseUint (s : string) : Z * option error :=
  match s with
  | EmptyString => (0, Some ErrSyntax)
  | _ => parseUintFrom s 0
  end.

(** What [ParseUint] accepts, said directly: a non-empty string of decimal
    digits whose value fits 64 bits. *)
Fixpoint decimalValue (s : string) (acc : Z) : Z :=
  match s with
  | EmptyString => acc
  | String c s' => decimalValue s' (acc * 10 + digitVal c)
  end.

Fixpoint allDigits (s : string) : bool :=
  match s with
  | EmptyString => true
  | String c s' => isDigit c && allDigits s'
  end.

Definition slash : ascii := "/"%char.

Definition isSlash (c : ascii) : bool := Ascii.eqb c slash.

(** Drop the leading slashes of a reversed path: the trailing ones. *)
Fixpoint stripSlashes (rpath : list ascii) : list ascii :=
  match rpath with
  | c :: r => if isSlash c then stripSlashes r else rpath
  | [] => []
  end.

(** The longest slash-free prefix of a reversed path: the last element. *)
Fixpoint untilSlash (rpath : list ascii) : list ascii :=
  match rpath with
  | c :: r => if isSlash c then [] else c :: untilSlash r
  | [] => []
  end.

(** [path.Base]. *)
Definition path_Base (path : string) : string :=
  match path with
  | EmptyString => "."
  | _ =>
      let stripped := stripSlashes (rev (list_ascii_of_string path)) in
      match rev (untilSlash stripped) with
      | [] => "/"
      | elem => string_of_list_ascii elem
      end
  end.

(** [http.Header]: a key maps to the list of its values. *)
Abbreviation header := (gmap string (list string)).

(** [Header.Get] for a key given in canonical form, as all keys of the
    program are. *)
Definition Get (h : header) (key : string) : string :=
  match h !! key with
  | Some (v :: _) => v
  | _ => ""
  end.

(** A parsed URL: the field the program reads. *)
Record URL := { Path : string }.

(** The two parsers the program takes from the library as they are:
    [url.Parse] and [mime.ParseMediaType]. *)
Record parsers := Parsers {
  url_Parse : string -> error + URL;
  mime_ParseMediaType : string -> error + (string * gmap string string)
}.

End Go.

(** ** The world outside the program *)

Abbreviation bytes := (list Byte.byte).

(** An [io.Reader]: the bytes it delivers, and the error that ends the
    stream if it does not end with EOF. *)
Record reader := Reader { data : bytes; readErr : option error }.

Record request := Request {
  Method : string;
  RawURL : string;
  RangeHeader : option string
}.

Record response := Response {
  StatusCode : Z;
  Header : Go.header;
  Body : reader
}.

(** What the network and the disk answer during one run: the outcome of
    [http.DefaultTransport.RoundTrip] per request, and the paths on which
    [os.Create], a write to the file, [os.Remove] or [os.Rename] (from a
    path to a path) fails. *)
Record world := World {
  RoundTrip : request -> error + response;
  CreateErr : string -> option error;
  WriteErr : string -> option error;
  RemoveErr : string -> option error;
  RenameErr : string -> string -> option error
}.

(** ** The progress writer *)

Record progressWriter := ProgressWriter { maxBytes : Z; readBytes : Z }.

(** [progressWriter.Write], without the printing: the writer afterwards and
    the count returned. *)
Definition Write (p : progressWriter) (d : bytes) : progressWriter * Z :=
  ({| maxBytes := maxBytes p;
      readBytes := u64 (readBytes p + Z.of_nat (length d)) |},
   Z.of_nat (length d)).

(** ** Program state and outcomes *)

Record state := State {
  files : gmap string bytes;
  progress : progressWriter
}.

(** How a call ends: it returns, it panics (the process dies with the
    files as they are), or its loop is still running when the fuel is
    spent. *)
Inductive outcome (A : Type) :=
  | Done (a : A) (s : state)
  | Panicked (e : error) (s : state)
  | Spinning.

Arguments Done {A} a s.
Arguments Panicked {A} e s.
Arguments Spinning {A}.

Definition M (A : Type) : Type := state -> outcome A.

#[global] Instance M_ret : MRet M := fun A a s => Done a s.

#[global] Instance M_bind : MBind M := fun A B k m s =>
  match m s with
  | Done a s' => k a s'
  | Panicked e s' => Panicked e s'
  | Spinning => Spinning
  end.

Definition panic {A : Type} (e : error) : M A := fun s => Panicked e s.

Definition modifyFiles (f : gmap string bytes -> gmap string bytes) : M unit :=
  fun s => Done tt {| files := f (files s); progress := progress s |}.

Definition report (d : bytes) : M unit :=
  fun s => Done tt {| files := files s; progress := fst (Write (progress s) d) |}.

Definition newProgress (total : Z) : M unit :=
  fun s => Done tt {| files := files s;
                      progress := {| maxBytes := total; readBytes := 0 |} |}.

Definition lookupFile (name : string) : M (option bytes) :=
  fun s => Done (files s !! name) s.

(** The state once [fileName] has been created empty, and once the bytes
    [d] have been written to it and reported. *)
Definition created (fileName : string) (s : state) : state :=
  {| files := <[fileName := []]> (files s); progress := progress s |}.

Definition written (fileName : string) (d : bytes) (s : state) : state :=
  {| files := <[fileName := d]> (<[fileName := []]> (files s));
     progress := fst (Write (progress s) d) |}.

(** [os.Rename]: the target is replaced; a missing source is an error. *)
Definition rename (old new : string) (fs : gmap string bytes) : gmap string bytes :=
  match fs !! old with
  | Some c => <[new := c]> (delete old fs)
  | None => fs
  end.

(** [fmt.Sprintf("%s.%d", fileName, index)]. *)
Definition chunkName (fileName : string) (index : Z) : string :=
  fileName +:+ "." +:+ pretty index.

(** [fmt.Sprintf("bytes=%d-%d", start, stop)]. *)
Definition rangeValue (start stop : Z) : string :=
  "bytes=" +:+ pretty start +:+ "-" +:+ pretty stop.

(** A fetch task as the dispatch loop spawns it: the arguments of the
    goroutine. *)
Record task := Task { index : Z; start : Z; stop : Z }.

(** ** The program *)

Section Program.

Context (lib : Go.parsers) (w : world).

(** [http.NewRequestWithContext(ctx, method, url, nil)]: the method is a
    valid one and the context is not nil, so it fails exactly when the URL
    does not parse. *)
Definition NewRequest (method url : string) : error + request :=
  match Go.url_Parse lib url with
  | inl e => inl e
  | inr _ => inr {| Method := method; RawURL := url; RangeHeader := None |}
  end.

Definition parseURLAndCaptureFilename (downloadURL : string) : string * option error :=
  match Go.url_Parse lib downloadURL with
  | inl e => ("", Some e)
  | inr u => (Go.path_Base (Go.Path u), None)
  end.

(** The named results [(filename, fileLength, err)].  The [err] assigned by
    the short declaration at [mime.ParseMediaType] is the named result: both
    are declared in the function's own block. *)
Definition extractDownloadDetailsFromHeaders (header : Go.header)
  : string * Z * option error :=
  let '(fileLength, err) := Go.ParseUint (Go.Get header "Content-Length") in
  match err with
  | Some e => ("", fileLength, Some e)
  | None =>
      let contentDisposition := Go.Get header "Content-Disposition" in
      if (String.length contentDisposition =? 0)%nat then ("", fileLength, None)
      else
        match Go.mime_ParseMediaType lib contentDisposition with
        | inl e => ("", fileLength, Some e)
        | inr (_, params) => (default "" (params !! "filename"), fileLength, None)
        end
  end.

Definition getHeaders (url : string) : Go.header * option error :=
  match NewRequest "HEAD" url with
  | inl e => (∅, Some (Wrap "http.head request creation failed" e))
  | inr req =>
      match RoundTrip w req with
      | inl e => (∅, Some (Wrap "http.head request failed" e))
      | inr res => (Header res, None)
      end
  end.

(** [io.Copy] writes only what it has read: nothing to write, no write
    error. *)
Definition writeFailure (fileName : string) (d : bytes) : option error :=
  match d with
  | [] => None
  | _ => WriteErr w fileName
  end.

(** [os.Create], then [io.Copy] into the file and the progress writer.
    Each failure panics.  A failing write is taken at the first write: the
    file stays as created and nothing is reported. *)
Definition dataWriter (fileName : string) (dataReader : reader) : M unit :=
  match CreateErr w fileName with
  | Some e => panic e
  | None =>
      modifyFiles (insert fileName []);;
      match writeFailure fileName (data dataReader) with
      | Some e => panic e
      | None =>
          modifyFiles (insert fileName (data dataReader));;
          report (data dataReader);;
          match readErr dataReader with
          | Some e => panic e
          | None => mret tt
          end
      end
  end.

Definition downloadRangeBytes (fileName : string) (start stop : Z) (url : string)
  : M (option error) :=
  match NewRequest "GET" url with
  | inl e => mret (Some e)
  | inr r =>
      let r := {| Method := Method r; RawURL := RawURL r;
                  RangeHeader := Some (rangeValue start stop) |} in
      match RoundTrip w r with
      | inl e => mret (Some e)
      | inr res => dataWriter fileName (Body res);; mret None
      end
  end.

Definition serialDownload (downloadURL : string) : M (string * option error) :=
  let '(fallbackFileName, err) := parseURLAndCaptureFilename downloadURL in
  match err with
  | Some e => mret ("", Some e)
  | None =>
      let fallbackFileName :=
        if String.eqb fallbackFileName "" then "index.html" else fallbackFileName in
      match NewRequest "GET" downloadURL with
      | inl e => mret ("", Some e)
      | inr req =>
          match RoundTrip w req with
          | inl e => mret ("", Some e)
          | inr res =>
              let '(fileName, contentLength, err) :=
                extractDownloadDetailsFromHeaders (Header res) in
              match err with
              | Some e => mret ("", Some e)
              | None =>
                  let fileName :=
                    if String.eqb fileName "" then fallbackFileName else fileName in
                  newProgress contentLength;;
                  dataWriter fileName (Body res);;
                  mret (fileName, None)
              end
          end
      end
  end.

(** The dispatch loop of [parallelDownload]: the tasks it spawns, in order,
    and the final [maxFiles].  [None]: the loop has not left within [fuel]
    rounds. *)
Fixpoint dispatch (fuel : nat) (generator : Partitioner.generator) (maxFiles : Z)
  : option (list task * Z) :=
  match fuel with
  | O => None
  | S fuel' =>
      let '(generator', (startRange, stopRange)) := Partitioner.next generator in
      if (startRange =? 0) && (stopRange =? 0) then Some ([], maxFiles)
      else
        match dispatch fuel' generator' (int64 (maxFiles + 1)) with
        | None => None
        | Some (ts, n) =>
            Some ({| index := maxFiles; start := startRange; stop := stopRange |} :: ts, n)
        end
  end.

(** The body of one goroutine. *)
Definition fetchTask (fileName downloadURL : string) (t : task) : M unit :=
  err ← downloadRangeBytes (chunkName fileName (index t)) (start t) (stop t) downloadURL;
  match err with
  | Some e => panic e
  | None => mret tt
  end.

(** The goroutines up to [downloaderWg.Wait()].  Each writes the chunk file
    of its own index and nothing else, so they are run here one after the
    other, in dispatch order. *)
Fixpoint fetchAll (fileName downloadURL : string) (ts : list task) : M unit :=
  match ts with
  | [] => mret tt
  | t :: ts' => fetchTask fileName downloadURL t;; fetchAll fileName downloadURL ts'
  end.

(** A step whose error the program drops: when it fails nothing changes
    and the run goes on. *)
Definition dropError (err : option error) (m : M unit) : M unit :=
  match err with
  | Some _ => mret tt
  | None => m
  end.

(** One round of the merge loop: open chunk [i], copy it to the end of the
    target, remove it.  The errors of the copy and of the removal are
    dropped by the program. *)
Definition mergeChunk (fileName : string) (i : Z) : M unit :=
  let finalFileName := chunkName fileName 0 in
  let currentFileName := chunkName fileName i in
  dataFile ← lookupFile currentFileName;
  match dataFile with
  | None => panic (ErrNotExist currentFileName)
  | Some d =>
      dropError (writeFailure finalFileName d)
        (modifyFiles (alter (fun c => c ++ d) finalFileName));;
      dropError (RemoveErr w currentFileName)
        (modifyFiles (delete currentFileName))
  end.

Fixpoint mergeLoop (fileName : string) (indices : list Z) : M unit :=
  match indices with
  | [] => mret tt
  | i :: rest => mergeChunk fileName i;; mergeLoop fileName rest
  end.

(** From [os.OpenFile] of chunk 0 to [os.Rename]: the loop runs for
    [i = 1 .. maxFiles - 1]; the error of the renaming is dropped. *)
Definition reassemble (fileName : string) (maxFiles : Z) : M unit :=
  let finalFileName := chunkName fileName 0 in
  targetFile ← lookupFile finalFileName;
  match targetFile with
  | None => panic (ErrNotExist finalFileName)
  | Some _ =>
      mergeLoop fileName (seqZ 1 (maxFiles - 1));;
      dropError (RenameErr w finalFileName fileName)
        (modifyFiles (rename finalFileName fileName))
  end.

Definition parallelDownload (fuel : nat) (downloadURL : string) (parallelRequests : Z)
  : M (string * option error) :=
  let '(fallbackFileName, err) := parseURLAndCaptureFilename downloadURL in
  match err with
  | Some e => mret ("", Some e)
  | None =>
      let '(headers, err) := getHeaders downloadURL in
      match err with
      | Some e => mret ("", Some e)
      | None =>
          if negb (String.eqb "bytes" (Go.Get headers "Accept-Ranges"))
          then mret ("", Some ErrNoParallelDownload)
          else
            let '(fileName, contentLength, err) :=
              extractDownloadDetailsFromHeaders headers in
            match err with
            | Some e => mret ("", Some e)
            | None =>
                let fileName :=
                  if String.eqb fileName "" then fallbackFileName else fileName in
                newProgress contentLength;;
                match Partitioner.batchGenerator contentLength parallelRequests with
                | None => panic ErrDivideByZero
                | Some generator =>
                    match dispatch fuel generator 0 with
                    | None => fun _ => Spinning
                    | Some (tasks, maxFiles) =>
                        fetchAll fileName downloadURL tasks;;
                        reassemble fileName maxFiles;;
                        mret (fileName, None)
                    end
                end
            end
      end
  end.

(** The probe of [parallelDownload] went through: the URL parsed, the HEAD
    request was answered, ranges are advertised and the header gave the
    content length; [fileName] is the name the function goes on with. *)
Definition probed (downloadURL fileName : string) (contentLength : Z) : Prop :=
  exists fallbackFileName headers name,
    parseURLAndCaptureFilename downloadURL = (fallbackFileName, None)
    /\ getHeaders downloadURL = (headers, None)
    /\ Go.Get headers "Accept-Ranges" = "bytes"
    /\ extractDownloadDetailsFromHeaders headers = (name, contentLength, None)
    /\ fileName = (if String.eqb name "" then fallbackFileName else name).

(** What [parallelDownload] does once the probe went through. *)
Definition afterProbe (fuel : nat) (downloadURL fileName : string)
  (contentLength parallelRequests : Z) : M (string * option error) :=
  newProgress contentLength;;
  match Partitioner.batchGenerator contentLength parallelRequests with
  | None => panic ErrDivideByZero
  | Some generator =>
      match dispatch fuel generator 0 with
      | None => fun _ => Spinning
      | Some (tasks, maxFiles) =>
          fetchAll fileName downloadURL tasks;;
          reassemble fileName maxFiles;;
          mret (fileName, None)
      end
  end.

(** A fetch task fails: the transfer breaks, the chunk file cannot be
    created, a write to it fails, or the body breaks off. *)
Definition taskFails (fileName downloadURL : string) (t : task) : Prop :=
  match RoundTrip w {| Method := "GET"; RawURL := downloadURL;
                       RangeHeader := Some (rangeValue (start t) (stop t)) |} with
  | inl _ => True
  | inr res =>
      CreateErr w (chunkName fileName (index t)) <> None
      \/ writeFailure (chunkName fileName (index t)) (data (Body res)) <> None
      \/ readErr (Body res) <> None
  end.



End Program.

(** The progress writer after the writes of [ds], one after the other. *)
Definition reported (p : progressWriter) (ds : list bytes) : progressWriter :=
  foldl (fun p d => fst (Write p d)) p ds.

(** The ranges with their positions in the order of emission, from
    [first] on: the tasks a dispatch of one task per range spawns. *)
Fixpoint numbered (first : Z) (rs : list (Z * Z)) : list task :=
  match rs with
  | [] => []
  | (a, b) :: rs' =>
      {| index := first; start := a; stop := b |} :: numbered (first + 1) rs'
  end.

(** The disk [fs] after the merge rounds for chunks 1 to [k], started on the
    disk [fs0] that held the [chunks] under their chunk names: chunk 0 holds
    the first [k + 1] chunks in order, chunks 1 to [k] are gone, the later
    ones are as they were, and so is every other path. *)
Definition mergedUpTo (fileName : string) (chunks : list bytes)
  (fs0 fs : gmap string bytes) (k : nat) : Prop :=
  fs !! chunkName fileName 0 = Some (concat (take (S k) chunks))
  /\ (forall j, (1 <= j <= k)%nat -> fs !! chunkName fileName (Z.of_nat j) = None)
  /\ (forall j c, (k < j)%nat -> chunks !! j = Some c ->
        fs !! chunkName fileName (Z.of_nat j) = Some c)
  /\ (forall p, (forall j, (j < length chunks)%nat -> p <> chunkName fileName (Z.of_nat j)) ->
        fs !! p = fs0 !! p).

(** ** Two calls of [Write] at once *)

Module Race.

(** [p.readBytes += uint64(len(data))] reads the field and then writes the
    sum back.  The program takes no lock around it and uses no atomic
    operation, so the two steps of one call can be separated by steps of
    another.  A call is at its read, at its write (holding the value it
    read), or has returned. *)
Inductive position :=
  | AtRead
  | AtWrite (seen : Z)
  | Returned.

Record call := Call { len : Z; at_ : position }.

Definition step (p : progressWriter) (c : call) : progressWriter * call :=
  match at_ c with
  | AtRead => (p, {| len := len c; at_ := AtWrite (readBytes p) |})
  | AtWrite seen =>
      ({| maxBytes := maxBytes p; readBytes := u64 (seen + len c) |},
       {| len := len c; at_ := Returned |})
  | Returned => (p, c)
  end.

(** A schedule names, step by step, the call that moves. *)
Fixpoint run (schedule : list nat) (p : progressWriter) (cs : list call)
  : progressWriter * list call :=
  match schedule with
  | [] => (p, cs)
  | i :: rest =>
      match cs !! i with
      | None => run rest p cs
      | Some c => let '(p', c') := step p c in run rest p' (<[i := c']> cs)
      end
  end.

Definition allReturned (cs : list call) : bool :=
  forallb (fun c => match at_ c with Returned => true | _ => false end) cs.

Definition fresh (lens : list Z) : list call :=
  map (fun n => {| len := n; at_ := AtRead |}) lens.

End Race.

(** ** Concrete inputs for the examples *)

Module Examples.

(** What Go's [url.Parse] and [mime.ParseMediaType] return on the URLs and
    header values used in the examples; every other input is refused here. *)
Definition parsers : Go.parsers := {|
  Go.url_Parse u :=
    if String.eqb u "http://example.com" then inr {| Go.Path := "" |}
    else if String.eqb u "http://example.com/pub/file.bin"
    then inr {| Go.Path := "/pub/file.bin" |}
    else inl (ErrURL "not an example");
  Go.mime_ParseMediaType v :=
    if String.eqb v "attachment; filename=report.pdf"
    then inr ("attachment", {[ "filename" := "report.pdf" ]})
    else if String.eqb v ";" then inl (ErrMime "mime: no media type")
    else inl (ErrMime "not an example")
|}.

Definition b (n : N) : Byte.byte := default Byte.x00 (Byte.of_N n).

(** The resource of the examples: eight bytes. *)
Definition payload : bytes := map b [1; 2; 3; 4; 5; 6; 7; 8]%N.

Definition slice (start stop : Z) : bytes :=
  take (Z.to_nat (stop - start + 1)) (drop (Z.to_nat start) payload).

(** The header of the probe's answer: whether ranges are advertised, the
    content length as sent, and the values of [Content-Disposition]. *)
Definition probeHeader (ranges : bool) (length : string) (disposition : list string)
  : Go.header :=
  (if ranges then <[ "Accept-Ranges" := ["bytes"] ]> else id)
    (<[ "Content-Length" := [length] ]>
       (match disposition with
        | [] => ∅
        | _ => {[ "Content-Disposition" := disposition ]}
        end)).

Definition answer (status : Z) (d : bytes) : error + response :=
  inr {| StatusCode := status; Header := ∅;
         Body := {| data := d; readErr := None |} |}.

(** A server for the eight bytes.  It answers the probe and the plain GET
    with [probe], and the ranged GETs for [0-3] and [4-7] with [status] and
    the bytes asked for, except for the range [failing], whose transfer
    breaks. *)
Definition server (probe : Go.header) (status : Z) (failing : option (Z * Z))
  (r : request) : error + response :=
  match RangeHeader r with
  | None =>
      inr {| StatusCode := 200; Header := probe;
             Body := {| data := if String.eqb (Method r) "HEAD" then [] else payload;
                        readErr := None |} |}
  | Some v =>
      let serve (range : Z * Z) : error + response :=
        if bool_decide (failing = Some range)
        then inl (ErrTransport "connection reset")
        else answer status (slice (fst range) (snd range)) in
      if String.eqb v (rangeValue 0 3) then serve (0, 3)
      else if String.eqb v (rangeValue 4 7) then serve (4, 7)
      else inl (ErrTransport "range not served")
  end.

(** The server above, and a disk on which the working directory [.] is what
    it is: no file can be created there or moved onto it. *)
Definition world (probe : Go.header) (status : Z) (failing : option (Z * Z))
  : world :=
  {| RoundTrip := server probe status failing;
     CreateErr := fun p =>
       if String.eqb p "." then Some (ErrIO "is a directory") else None;
     WriteErr := fun _ => None;
     RemoveErr := fun _ => None;
     RenameErr := fun _ new =>
       if String.eqb new "." then Some (ErrIO "file exists") else None |}.

Definition emptyDisk : state :=
  {| files := ∅; progress := {| maxBytes := 0; readBytes := 0 |} |}.

(** The disk once both halves have been fetched. *)
Definition fetchedDisk : state :=
  {| files := {[ "file.bin.0" := slice 0 3; "file.bin.1" := slice 4 7 ]};
     progress := {| maxBytes := 8; readBytes := 8 |} |}.

End Examples.

(** ** The rest of the program: [main] and the test *)

#[global] Instance error_eq_dec : EqDecision error.
Proof. intros x y. unfold Decision. decide equality; apply string_dec. Defined.

(** [errors.Is(err, target)]: [err] is [target], or wraps an error that is.
    The program calls it on [ErrNoParallelDownload] only, a value of its
    own, for which Go's comparison is the one of constructors here. *)
Fixpoint errors_Is (err target : error) : bool :=
  if decide (err = target) then true
  else
    match err with
    | Wrap _ e => errors_Is e target
    | _ => false
    end.


Section Main.

Context (lib : Go.parsers) (w : world).


End Main.

Module Test.

(** The cases of [TestBatchGenerator]: a generator and the batches the test
    expects from its successive calls. *)
Definition cases : list (option Partitioner.generator * list (Z * Z)) :=
  [ (Partitioner.batchGenerator 11 3, [(0, 3); (3, 6); (6, 9); (9, 11); (0, 0)]);
    (Partitioner.batchGenerator 11 2, [(0, 5); (5, 10); (10, 11); (0, 0)]);
    (Partitioner.batchGenerator 5 1, [(0, 5); (0, 0)]) ].

(** The inner loop: one call per expected batch, and the pair reported by
    [t.Errorf] for each call that differs from it. *)
Fixpoint check (g : Partitioner.generator) (batches : list (Z * Z)) : list (Z * Z) :=
  match batches with
  | [] => []
  | b :: rest =>
      let '(g', (start, stop)) := Partitioner.next g in
      (if negb (start =? fst b) || negb (stop =? snd b) then [(start, stop)] else [])
      ++ check g' rest
  end.

(** The failures the test reports. *)
Definition TestBatchGenerator : list (Z * Z) :=
  flat_map (fun c => match fst c with
                     | Some g => check g (snd c)
                     | None => []
                     end) cases.

End Test.

(** ** Names and errors, for the statements below *)

(** The name both download functions settle on, from the header that
    carries [Content-Disposition] and the parsed URL: the [filename]
    parameter if the header gives a non-empty one, else [path.Base] of the
    URL's path. *)
Definition resolvedName (lib : Go.parsers) (header : Go.header) (u : Go.URL) : string :=
  let name := fst (fst (extractDownloadDetailsFromHeaders lib header)) in
  if String.eqb name "" then Go.path_Base (Go.Path u) else name.

(** The errors that come from outside the program (the two parsers and the
    transport) are not [ErrNoParallelDownload] and do not wrap it: the
    variable is the program's own. *)
Definition foreignErrors (lib : Go.parsers) (w : world) : Prop :=
  (forall s e, Go.url_Parse lib s = inl e -> errors_Is e ErrNoParallelDownload = false)
  /\ (forall v e, Go.mime_ParseMediaType lib v = inl e ->
        errors_Is e ErrNoParallelDownload = false)
  /\ (forall r e, RoundTrip w r = inl e -> errors_Is e ErrNoParallelDownload = false).

(** The probe request and the plain download request for a URL. *)
Definition headRequest (downloadURL : string) : request :=
  {| Method := "HEAD"; RawURL := downloadURL; RangeHeader := None |}.

Definition getRequest (downloadURL : string) : request :=
  {| Method := "GET"; RawURL := downloadURL; RangeHeader := None |}.

(** ** Two calls of [Write]: every configuration they can reach *)

(** From a counter at [r0], calls of [a] and of [b] bytes: the positions of
    the two calls and the value of the counter, in every configuration a
    schedule can lead to. *)
Definition raceStates (r0 a b : Z) : list (Race.position * Race.position * Z) :=
  [ (Race.AtRead, Race.AtRead, r0);
    (Race.AtWrite r0, Race.AtRead, r0);
    (Race.AtRead, Race.AtWrite r0, r0);
    (Race.AtWrite r0, Race.AtWrite r0, r0);
    (Race.Returned, Race.AtRead, r0 + a);
    (Race.AtRead, Race.Returned, r0 + b);
    (Race.Returned, Race.AtWrite r0, r0 + a);
    (Race.AtWrite r0, Race.Returned, r0 + b);
    (Race.Returned, Race.AtWrite (r0 + a), r0 + a);
    (Race.AtWrite (r0 + b), Race.Returned, r0 + b);
    (Race.Returned, Race.Returned, r0 + a + b);
    (Race.Returned, Race.Returned, r0 + b);
    (Race.Returned, Race.Returned, r0 + a) ].

Definition raceReachable (total r0 a b : Z) (p : progressWriter) (cs : list Race.call)
  : Prop :=
  maxBytes p = total
  /\ exists pa pb,
       cs = [ {| Race.len := a; Race.at_ := pa |}; {| Race.len := b; Race.at_ := pb |} ]
       /\ In (pa, pb, readBytes p) (raceStates r0 a b).

(** ** Closed forms for the statements below *)

(** The number of ranges of a partition in batches of [batchSize], and the
    range at position [i]. *)
Definition rangeCount (contentLength batchSize : Z) : Z :=
  (contentLength + batchSize - 1) / batchSize.

Definition nthRange (contentLength batchSize i : Z) : Z * Z :=
  (i * batchSize, Z.min contentLength ((i + 1) * batchSize) - 1).

Definition rangeOf (t : task) : Z * Z := (start t, stop t).

Definition hasSlash (s : string) : bool :=
  existsb Go.isSlash (list_ascii_of_string s).

(** * Theorems *)

(** ** Machine integers *)

Lemma u64_small z : 0 <= z < 2 ^ 64 -> u64 z = z.
Proof. intros H. unfold u64. apply Z.mod_small. exact H. Qed.

Lemma u64_minus_one : u64 (0 - 1) = MaxUint64.
Proof. reflexivity. Qed.

Lemma int64_small z : - 2 ^ 63 <= z < 2 ^ 63 -> int64 z = z.
Proof. intros H. unfold int64. rewrite Z.mod_small; lia. Qed.

(** ** The partitioner and the dispatch loop *)

Section PartitionerFacts.


(** One call below the content length, when nothing wraps. *)
Lemma next_in_range cl bs s :
  0 <= s < cl -> 1 <= bs -> cl + bs <= 2 ^ 64 ->
  Partitioner.next (Partitioner.Generator cl bs s) =
    ((Partitioner.Generator cl bs (s + bs)),
     (s, Z.min cl (s + bs) - 1)).
Proof.
  intros Hs Hbs Hfit. unfold Partitioner.next. cbn [Partitioner.contentLength Partitioner.batchSize Partitioner.start].
  destruct (Z.leb_spec cl s) as [Hle | _]; [lia |].
  rewrite (u64_small (s + bs)) by lia.
  replace (s + bs - bs) with s by lia.
  rewrite (u64_small s) by lia.
  destruct (Z.ltb_spec cl (s + bs)) as [Hlt | Hge].
  - rewrite Z.min_l by lia. rewrite u64_small by lia. reflexivity.
  - rewrite Z.min_r by lia. rewrite u64_small by lia. reflexivity.
Qed.

Lemma emitted_exhausted fuel g :
  Partitioner.exhausted g = true -> Partitioner.emitted (S fuel) g = Some [].
Proof. intros H. cbn [Partitioner.emitted]. rewrite H. reflexivity. Qed.

Lemma emitted_more fuel g rs :
  Partitioner.emitted fuel g = Some rs -> Partitioner.emitted (S fuel) g = Some rs.
Proof.
  revert g rs. induction fuel as [| fuel IH]; intros g rs H; [discriminate |].
  cbn [Partitioner.emitted] in H. change (Partitioner.emitted (S (S fuel)) g) with
    (if Partitioner.exhausted g then Some [] else
       let '(g', r) := Partitioner.next g in option_map (cons r) (Partitioner.emitted (S fuel) g')).
  destruct (Partitioner.exhausted g); [exact H |].
  destruct (Partitioner.next g) as [g' r].
  destruct (Partitioner.emitted fuel g') as [rs' |] eqn:E; [| discriminate].
  rewrite (IH _ _ E). exact H.
Qed.

Lemma emitted_enough fuel fuel' g rs :
  (fuel <= fuel')%nat -> Partitioner.emitted fuel g = Some rs -> Partitioner.emitted fuel' g = Some rs.
Proof.
  intros Hle H. induction Hle as [| m _ IH]; [exact H |].
  apply emitted_more. exact IH.
Qed.

Lemma emitted_covers (k : nat) cl bs s :
  1 <= bs -> cl + bs <= 2 ^ 64 -> 0 <= s <= cl -> cl - s <= Z.of_nat k ->
  exists rs,
    Partitioner.emitted (S k) (Partitioner.Generator cl bs s) = Some rs
    /\ Partitioner.covers s rs cl.
Proof.
  intros Hbs Hfit. revert s. induction k as [| k IH]; intros s Hs Hk.
  - exists []. split; [| cbn; lia].
    apply emitted_exhausted. unfold Partitioner.exhausted. cbn. apply Z.leb_le. lia.
  - destruct (Z.eq_dec s cl) as [-> | Hne].
    { exists []. split; [| reflexivity].
      apply emitted_exhausted. unfold Partitioner.exhausted. cbn. apply Z.leb_le. lia. }
    assert (Hlt : 0 <= s < cl) by lia.
    cbn [Partitioner.emitted]. unfold Partitioner.exhausted at 1. cbn [Partitioner.contentLength Partitioner.start].
    destruct (Z.leb_spec cl s) as [? | _]; [lia |].
    rewrite next_in_range by lia.
    destruct (Z_lt_le_dec cl (s + bs)) as [Hover | Hin].
    + exists [(s, cl - 1)]. split.
      * unfold Partitioner.exhausted. cbn [Partitioner.contentLength Partitioner.start].
        destruct (Z.leb_spec cl (s + bs)) as [_ | ?]; [| lia].
        rewrite Z.min_l by lia. reflexivity.
      * cbn. repeat split; lia.
    + destruct (IH (s + bs)) as (rs & Hrs & Hcov); [lia | lia |].
      exists ((s, s + bs - 1) :: rs). split.
      * cbn [Partitioner.emitted] in Hrs. rewrite Hrs. rewrite Z.min_r by lia. reflexivity.
      * cbn. repeat split; try lia.
        replace (s + bs - 1 + 1) with (s + bs) by lia. exact Hcov.
Qed.

(** What tiling gives, property by property. *)

Lemma covers_le lo rs hi : Partitioner.covers lo rs hi -> lo <= hi.
Proof.
  revert lo. induction rs as [| [a b] rs IH]; intros lo H; cbn in H.
  - lia.
  - destruct H as (-> & Hab & H). apply IH in H. lia.
Qed.

Lemma covers_hits lo rs hi x :
  Partitioner.covers lo rs hi -> Partitioner.hits x rs = if (lo <=? x) && (x <? hi) then 1%nat else 0%nat.
Proof.
  revert lo. induction rs as [| [a b] rs IH]; intros lo H; cbn in H.
  - subst. unfold Partitioner.hits. cbn.
    destruct (Z.leb_spec hi x), (Z.ltb_spec x hi); cbn; try reflexivity; lia.
  - destruct H as (-> & Hab & H). pose proof (covers_le _ _ _ H) as Hle.
    specialize (IH _ H). unfold Partitioner.hits in *. cbn [List.filter fst snd].
    destruct (Z.leb_spec lo x), (Z.leb_spec x b), (Z.leb_spec (b + 1) x), (Z.ltb_spec x hi);
      cbn [andb length] in *; try lia; rewrite IH; reflexivity.
Qed.

Lemma covers_last lo rs hi a b :
  Partitioner.covers lo rs hi -> last rs = Some (a, b) -> b = hi - 1.
Proof.
  revert lo. induction rs as [| [c d] rs IH]; intros lo H Hl; [discriminate |].
  cbn in H. destruct H as (-> & Hcd & H).
  destruct rs as [| r rs'].
  - cbn in *. inversion Hl; subst. lia.
  - apply (IH _ H). exact Hl.
Qed.

(** Consecutive ranges: the Partitioner.next one starts right Partitioner.after the previous stops,
    so starts increase strictly and no two ranges overlap. *)
Lemma covers_adjacent lo rs hi i a b c d :
  Partitioner.covers lo rs hi -> rs !! i = Some (a, b) -> rs !! S i = Some (c, d) ->
  a <= b /\ c = b + 1 /\ a < c.
Proof.
  revert lo i. induction rs as [| [a0 b0] rs IH]; intros lo i H Hi HS; [discriminate |].
  cbn in H. destruct H as (-> & Hab & H).
  destruct i as [| i].
  - cbn in Hi. inversion Hi; subst. destruct rs as [| [c0 d0] rs']; [discriminate |].
    cbn in HS. inversion HS; subst. cbn in H. destruct H as (-> & _). lia.
  - cbn in Hi, HS. exact (IH _ _ H Hi HS).
Qed.

Lemma covers_head lo rs hi : lo < hi -> Partitioner.covers lo rs hi -> exists b, head rs = Some (lo, b).
Proof.
  intros Hlt H. destruct rs as [| [a b] rs]; cbn in H; [lia |].
  destruct H as (-> & _). exists b. reflexivity.
Qed.


Lemma covers_last_stop lo rs hi :
  lo < hi -> Partitioner.covers lo rs hi -> exists a, last rs = Some (a, hi - 1).
Proof.
  intros Hlt H. destruct (last rs) as [[a b] |] eqn:E.
  - exists a. rewrite (covers_last _ _ _ _ _ H E). reflexivity.
  - apply last_None in E. subst. cbn in H. lia.
Qed.

Lemma batchGenerator_some cl n :
  n <> 0 ->
  Partitioner.batchGenerator cl n =
    Some (Partitioner.Generator cl (cl / n) 0).
Proof.
  intros Hn. unfold Partitioner.batchGenerator.
  destruct (Z.eqb_spec n 0); [contradiction | reflexivity].
Qed.

(** The batch Partitioner.size is 0 exactly when the fan-out exceeds the length. *)
Lemma zero_batch_next cl :
  1 <= cl ->
  let g := (Partitioner.Generator cl 0 0) in
  Partitioner.next g = (g, (0, MaxUint64)).
Proof.
  intros Hcl g. unfold Partitioner.next, g. cbn [Partitioner.contentLength Partitioner.batchSize Partitioner.start].
  destruct (Z.leb_spec cl 0); [lia |].
  change (u64 (0 + 0)) with 0. cbn [Z.sub].
  destruct (Z.ltb_spec cl 0); [lia |]. reflexivity.
Qed.

Lemma zero_batch_calls cl k :
  1 <= cl ->
  Partitioner.calls k (Partitioner.Generator cl 0 0)
  = repeat (0, MaxUint64) k.
Proof.
  intros Hcl. induction k as [| k IH]; [reflexivity |].
  cbn [Partitioner.calls repeat]. rewrite (zero_batch_next cl Hcl). rewrite IH. reflexivity.
Qed.

Lemma zero_batch_emitted cl fuel :
  1 <= cl ->
  Partitioner.emitted fuel (Partitioner.Generator cl 0 0) = None.
Proof.
  intros Hcl. induction fuel as [| fuel IH]; [reflexivity |].
  cbn [Partitioner.emitted]. unfold Partitioner.exhausted. cbn [Partitioner.contentLength Partitioner.start].
  destruct (Z.leb_spec cl 0); [lia |].
  rewrite (zero_batch_next cl Hcl). rewrite IH. reflexivity.
Qed.

Lemma zero_batch_dispatch cl fuel maxFiles :
  1 <= cl ->
  dispatch fuel (Partitioner.Generator cl 0 0) maxFiles = None.
Proof.
  intros Hcl. revert maxFiles. induction fuel as [| fuel IH]; intros maxFiles; [reflexivity |].
  cbn [dispatch]. rewrite (zero_batch_next cl Hcl).
  change ((0 =? 0) && (MaxUint64 =? 0)) with false. cbn iota.
  rewrite IH. reflexivity.
Qed.

Lemma emitted_S fuel g :
  Partitioner.emitted (S fuel) g =
    if Partitioner.exhausted g then Some []
    else let '(g', r) := Partitioner.next g in option_map (cons r) (Partitioner.emitted fuel g').
Proof. reflexivity. Qed.

Lemma dispatch_S fuel g maxFiles :
  dispatch (S fuel) g maxFiles =
    let '(g', (startRange, stopRange)) := Partitioner.next g in
    if (startRange =? 0) && (stopRange =? 0) then Some ([], maxFiles)
    else
      match dispatch fuel g' (int64 (maxFiles + 1)) with
      | None => None
      | Some (ts, n) =>
          Some ({| index := maxFiles; start := startRange; stop := stopRange |} :: ts, n)
      end.
Proof. reflexivity. Qed.

Lemma next_exhausted g : Partitioner.exhausted g = true -> Partitioner.next g = (g, (0, 0)).
Proof. unfold Partitioner.exhausted, Partitioner.next. intros ->. reflexivity. Qed.

Lemma dispatch_exhausted fuel g maxFiles :
  Partitioner.exhausted g = true -> dispatch (S fuel) g maxFiles = Some ([], maxFiles).
Proof. intros H. cbn [dispatch]. rewrite (next_exhausted g H). reflexivity. Qed.

Lemma exhausted_at cl bs s :
  cl <= s -> Partitioner.exhausted (Partitioner.Generator cl bs s) = true.
Proof. intros H. unfold Partitioner.exhausted. cbn. apply Z.leb_le. exact H. Qed.

(** With batches of two bytes or more no Partitioner.emitted range is the pair (0, 0),
    and the loop spawns one task per range, numbered in order. *)
Lemma dispatch_numbered (k : nat) cl bs s idx :
  2 <= bs -> 2 <= cl -> cl + bs <= 2 ^ 64 ->
  0 <= s <= cl -> 0 <= idx -> s = idx * bs -> cl - s <= Z.of_nat k ->
  exists rs,
    Partitioner.emitted (S k) (Partitioner.Generator cl bs s) = Some rs
    /\ dispatch (S k) (Partitioner.Generator cl bs s) idx
       = Some (numbered idx rs, idx + Z.of_nat (length rs))
    /\ idx + Z.of_nat (length rs) < 2 ^ 63.
Proof.
  intros Hbs Hcl Hfit. revert s idx. induction k as [| k IH]; intros s idx Hs Hidx Heq Hk.
  - exists []. split; [| split].
    + apply emitted_exhausted, exhausted_at. lia.
    + rewrite dispatch_exhausted by (apply exhausted_at; lia).
      cbn. rewrite Z.add_0_r. reflexivity.
    + cbn. nia.
  - destruct (Z.eq_dec s cl) as [Hscl | Hne].
    { exists []. split; [| split].
      + apply emitted_exhausted, exhausted_at. lia.
      + rewrite dispatch_exhausted by (apply exhausted_at; lia).
        cbn. rewrite Z.add_0_r. reflexivity.
      + cbn. nia. }
    assert (Hlt : 0 <= s < cl) by lia.
    assert (Hidx1 : idx + 1 < 2 ^ 63) by nia.
    rewrite emitted_S, dispatch_S. unfold Partitioner.exhausted at 1. cbn [Partitioner.contentLength Partitioner.start].
    destruct (Z.leb_spec cl s) as [? | _]; [lia |].
    rewrite next_in_range by lia.
    assert (Hnz : (s =? 0) && (Z.min cl (s + bs) - 1 =? 0) = false).
    { destruct (Z.eqb_spec s 0) as [-> | ?]; [| reflexivity].
      destruct (Z.eqb_spec (Z.min cl (0 + bs) - 1) 0); [lia | reflexivity]. }
    rewrite Hnz. rewrite (int64_small (idx + 1)) by lia.
    destruct (Z_lt_le_dec cl (s + bs)) as [Hover | Hin].
    + exists [(s, cl - 1)].
      rewrite Z.min_l by lia. split; [| split].
      * rewrite emitted_exhausted by (apply exhausted_at; lia). reflexivity.
      * rewrite dispatch_exhausted by (apply exhausted_at; lia). reflexivity.
      * cbn. lia.
    + destruct (IH (s + bs) (idx + 1)) as (rs & Hrs & Hd & Hb); [lia | lia | lia | lia |].
      exists ((s, s + bs - 1) :: rs). rewrite Z.min_r by lia. split; [| split].
      * rewrite Hrs. reflexivity.
      * rewrite Hd. cbn [numbered length]. rewrite Nat2Z.inj_succ. do 2 f_equal. lia.
      * cbn [length]. lia.
Qed.


(** A partition of two-byte batches or more is dispatched as it is emitted. *)
Lemma partition_emitted cl n :
  1 <= n <= cl -> cl + cl / n <= 2 ^ 64 ->
  exists rs,
    (forall fuel, (Z.to_nat cl < fuel)%nat -> Partitioner.partition fuel cl n = Some rs)
    /\ Partitioner.covers 0 rs cl.
Proof.
  intros Hn Hfit.
  assert (Hbs : 1 <= cl / n) by (apply Z.div_le_lower_bound; lia).
  destruct (emitted_covers (Z.to_nat cl) cl (cl / n) 0) as (rs & Hrs & Hcov); try lia.
  exists rs. split; [| exact Hcov].
  intros fuel Hfuel. unfold Partitioner.partition.
  rewrite batchGenerator_some by lia.
  apply (emitted_enough (S (Z.to_nat cl))); [lia | exact Hrs].
Qed.

End PartitionerFacts.

(** X1.  For a fan-out between 1 and the content length, and a content
    length that leaves room for one batch below 2^64, the ranges the
    partitioner emits before its guard fires tile [0, contentLength): the
    first starts at 0, each starts right after the previous one stops, every
    byte offset lies in exactly one range and the last stops at
    contentLength - 1. *)
Theorem partition_tiles (contentLength fanOut : Z) :
  1 <= fanOut <= contentLength ->
  contentLength + contentLength / fanOut <= 2 ^ 64 ->
  exists rs,
    (forall fuel, (Z.to_nat contentLength < fuel)%nat ->
       Partitioner.partition fuel contentLength fanOut = Some rs)
    /\ Partitioner.covers 0 rs contentLength
    /\ (exists b, head rs = Some (0, b))
    /\ (forall i a b c d, rs !! i = Some (a, b) -> rs !! S i = Some (c, d) ->
          a <= b /\ c = b + 1 /\ a < c)
    /\ (forall x, Partitioner.hits x rs =
          if (0 <=? x) && (x <? contentLength) then 1%nat else 0%nat)
    /\ (exists a, last rs = Some (a, contentLength - 1)).
Proof.
  intros Hn Hfit.
  destruct (partition_emitted contentLength fanOut Hn Hfit) as (rs & Hrs & Hcov).
  exists rs. split; [exact Hrs |]. split; [exact Hcov |].
  split; [apply (covers_head _ _ contentLength); [lia | exact Hcov] |].
  split; [intros i a b c d; apply (covers_adjacent _ _ _ _ _ _ _ _ Hcov) |].
  split; [intros x; apply covers_hits; exact Hcov |].
  apply (covers_last_stop 0); [lia | exact Hcov].
Qed.

Lemma partition_tiles_witness :
  exists rs,
    (forall fuel, (Z.to_nat 11 < fuel)%nat -> Partitioner.partition fuel 11 3 = Some rs)
    /\ Partitioner.covers 0 rs 11
    /\ (exists b, head rs = Some (0, b))
    /\ (forall i a b c d, rs !! i = Some (a, b) -> rs !! S i = Some (c, d) ->
          a <= b /\ c = b + 1 /\ a < c)
    /\ (forall x, Partitioner.hits x rs = if (0 <=? x) && (x <? 11) then 1%nat else 0%nat)
    /\ (exists a, last rs = Some (a, 11 - 1)).
Proof. apply (partition_tiles 11 3); [lia | vm_compute; discriminate]. Defined.

(** C1.  With a fan-out above the content length the batch size is 0: every
    call returns the pair (0, 2^64 - 1), the cursor stays at 0 and the guard
    never fires, so no sequence of ranges covering [0, contentLength) is
    ever completed. *)
Theorem partition_above_length_never_ends (contentLength fanOut : Z) :
  1 <= contentLength < fanOut ->
  exists g,
    Partitioner.batchGenerator contentLength fanOut = Some g
    /\ Partitioner.batchSize g = 0
    /\ (forall k, Partitioner.calls k g = repeat (0, MaxUint64) k)
    /\ (forall k, Partitioner.exhausted (Partitioner.after k g) = false)
    /\ (forall fuel, Partitioner.partition fuel contentLength fanOut = None).
Proof.
  intros H.
  assert (Hbs : contentLength / fanOut = 0) by (apply Z.div_small; lia).
  exists (Partitioner.Generator contentLength 0 0).
  split; [rewrite batchGenerator_some by lia; rewrite Hbs; reflexivity |].
  split; [reflexivity |].
  split; [intros k; apply zero_batch_calls; lia |].
  split.
  - intros k. induction k as [| k IH].
    + unfold Partitioner.exhausted. cbn. apply Z.leb_gt. lia.
    + cbn [Partitioner.after]. rewrite zero_batch_next by lia. exact IH.
  - intros fuel. unfold Partitioner.partition.
    rewrite batchGenerator_some by lia. rewrite Hbs.
    apply zero_batch_emitted. lia.
Qed.

Lemma partition_above_length_never_ends_witness :
  exists g,
    Partitioner.batchGenerator 1 2 = Some g
    /\ Partitioner.batchSize g = 0
    /\ (forall k, Partitioner.calls k g = repeat (0, MaxUint64) k)
    /\ (forall k, Partitioner.exhausted (Partitioner.after k g) = false)
    /\ (forall fuel, Partitioner.partition fuel 1 2 = None).
Proof. apply (partition_above_length_never_ends 1 2). lia. Defined.

Section DispatchFacts.

Lemma dispatch_more fuel g maxFiles r :
  dispatch fuel g maxFiles = Some r -> dispatch (S fuel) g maxFiles = Some r.
Proof.
  revert g maxFiles r. induction fuel as [| fuel IH]; intros g maxFiles r H; [discriminate |].
  rewrite dispatch_S in H. rewrite (dispatch_S (S fuel)).
  destruct (Partitioner.next g) as [g' [a b]].
  destruct ((a =? 0) && (b =? 0)); [exact H |].
  destruct (dispatch fuel g' (int64 (maxFiles + 1))) as [[ts m] |] eqn:E; [| discriminate].
  rewrite (IH _ _ _ E). exact H.
Qed.

Lemma dispatch_enough fuel fuel' g maxFiles r :
  (fuel <= fuel')%nat -> dispatch fuel g maxFiles = Some r -> dispatch fuel' g maxFiles = Some r.
Proof.
  intros Hle H. induction Hle as [| m _ IH]; [exact H |].
  apply dispatch_more. exact IH.
Qed.

End DispatchFacts.

(** X2.  When the batch size is at least 2 and nothing wraps, the dispatch
    loop ends and spawns exactly one task per range of the partition, the
    task of the i-th emitted range carrying the index i; [maxFiles] ends as
    the number of ranges. *)
Theorem dispatch_follows_partition (contentLength fanOut : Z) :
  1 <= fanOut -> 2 <= contentLength / fanOut ->
  contentLength + contentLength / fanOut <= 2 ^ 64 ->
  exists g rs,
    Partitioner.batchGenerator contentLength fanOut = Some g
    /\ Partitioner.covers 0 rs contentLength
    /\ forall fuel, (Z.to_nat contentLength < fuel)%nat ->
         Partitioner.emitted fuel g = Some rs
         /\ dispatch fuel g 0 = Some (numbered 0 rs, Z.of_nat (length rs)).
Proof.
  intros Hn Hbs Hfit.
  assert (Hcl : 2 <= contentLength).
  { pose proof (Z.mul_div_le contentLength fanOut). nia. }
  destruct (dispatch_numbered (Z.to_nat contentLength) contentLength
              (contentLength / fanOut) 0 0) as (rs & Hrs & Hd & _); try lia.
  destruct (emitted_covers (Z.to_nat contentLength) contentLength
              (contentLength / fanOut) 0) as (rs' & Hrs' & Hcov); try lia.
  assert (rs' = rs) by congruence. subst rs'.
  exists (Partitioner.Generator contentLength (contentLength / fanOut) 0), rs.
  split; [apply batchGenerator_some; lia |]. split; [exact Hcov |].
  intros fuel Hfuel. split.
  - apply (emitted_enough (S (Z.to_nat contentLength))); [lia | exact Hrs].
  - apply (dispatch_enough (S (Z.to_nat contentLength))); [lia | exact Hd].
Qed.

Lemma dispatch_follows_partition_witness :
  exists g rs,
    Partitioner.batchGenerator 11 3 = Some g
    /\ Partitioner.covers 0 rs 11
    /\ forall fuel, (Z.to_nat 11 < fuel)%nat ->
         Partitioner.emitted fuel g = Some rs
         /\ dispatch fuel g 0 = Some (numbered 0 rs, Z.of_nat (length rs)).
Proof.
  apply (dispatch_follows_partition 11 3); [lia | vm_compute; discriminate | vm_compute; discriminate].
Defined.

(** C2, the claim at partition(11, 2): the code emits three ranges, of
    sizes 5, 5 and 1, not the sizes 5 and 6. *)
Lemma partition_11_2_has_three_ranges :
  Partitioner.partition 10 11 2 = Some [(0, 4); (5, 9); (10, 10)]
  /\ option_map (map Partitioner.size) (Partitioner.partition 10 11 2) <> Some [5; 6].
Proof. split; [reflexivity | vm_compute; discriminate]. Qed.

(** C2, as amended.  The generator starts at cursor 0 with
    batchSize = contentLength / fanOut, and a call below the content length
    moves the cursor by batchSize (modulo 2^64).  The last range is cut off
    at the content length: a remainder is emitted as one more, shorter range.
    partition(11, 3) is (0,2), (3,5), (6,8), (9,10), of sizes 3, 3, 3, 2;
    partition(11, 2) is (0,4), (5,9), (10,10), of sizes 5, 5, 1;
    partition(5, 1) is the single range (0,4). *)
Theorem partition_concrete_cases :
  (forall contentLength fanOut, fanOut <> 0 ->
     Partitioner.batchGenerator contentLength fanOut
     = Some (Partitioner.Generator contentLength (contentLength / fanOut) 0))
  /\ (forall g, Partitioner.exhausted g = false ->
        Partitioner.start (fst (Partitioner.next g))
        = u64 (Partitioner.start g + Partitioner.batchSize g))
  /\ Partitioner.partition 10 11 3 = Some [(0, 2); (3, 5); (6, 8); (9, 10)]
  /\ option_map (map Partitioner.size) (Partitioner.partition 10 11 3) = Some [3; 3; 3; 2]
  /\ Partitioner.partition 10 11 2 = Some [(0, 4); (5, 9); (10, 10)]
  /\ option_map (map Partitioner.size) (Partitioner.partition 10 11 2) = Some [5; 5; 1]
  /\ Partitioner.partition 10 5 1 = Some [(0, 4)]
  /\ option_map (map Partitioner.size) (Partitioner.partition 10 5 1) = Some [5].
Proof.
  split; [intros cl n Hn; apply batchGenerator_some; exact Hn |].
  split.
  - intros g Hg. unfold Partitioner.exhausted in Hg. unfold Partitioner.next.
    rewrite Hg. reflexivity.
  - repeat split; reflexivity.
Qed.
(** ** The monad of outcomes *)

Lemma bind_unfold {A B : Type} (m : M A) (k : A -> M B) (s : state) :
  (m ≫= k) s =
    match m s with
    | Done a s' => k a s'
    | Panicked e s' => Panicked e s'
    | Spinning => Spinning
    end.
Proof. reflexivity. Qed.

(** Run the monadic steps whose outcome is known. *)
Ltac run_known :=
  repeat first
    [ rewrite bind_unfold
    | progress cbn [mret M_ret panic lookupFile modifyFiles newProgress report
                    dropError files progress fetchAll mergeLoop] ].

(** ** The probe and what follows it *)

Section ProgramFacts.

Context (lib : Go.parsers) (w : world).

Lemma parallelDownload_probed fuel downloadURL fileName contentLength parallelRequests s :
  probed lib w downloadURL fileName contentLength ->
  parallelDownload lib w fuel downloadURL parallelRequests s
  = afterProbe lib w fuel downloadURL fileName contentLength parallelRequests s.
Proof.
  intros (fallback & headers & name & Hparse & Hhead & Hranges & Hextract & ->).
  unfold parallelDownload, afterProbe.
  rewrite Hparse, Hhead, Hranges, Hextract. reflexivity.
Qed.

End ProgramFacts.

(** C3.  When the requested fan-out exceeds the content length, nothing is
    capped: the batch size is 0, the first call already returns the stop
    0 - 1 wrapped to 2^64 - 1 and leaves the cursor at 0, so the dispatch
    loop of [parallelDownload] never leaves, whatever the number of rounds
    it is given. *)
Theorem parallelDownload_spins_above_length
  (lib : Go.parsers) (w : world) (downloadURL fileName : string)
  (contentLength parallelRequests : Z) (s : state) :
  probed lib w downloadURL fileName contentLength ->
  1 <= contentLength < parallelRequests ->
  (exists g,
     Partitioner.batchGenerator contentLength parallelRequests = Some g
     /\ Partitioner.next g = (g, (0, u64 (0 - 1)))
     /\ forall fuel maxFiles, dispatch fuel g maxFiles = None)
  /\ forall fuel,
       parallelDownload lib w fuel downloadURL parallelRequests s = Spinning.
Proof.
  intros Hprobe H.
  assert (Hbs : contentLength / parallelRequests = 0) by (apply Z.div_small; lia).
  assert (Hgen : Partitioner.batchGenerator contentLength parallelRequests
                 = Some (Partitioner.Generator contentLength 0 0)).
  { rewrite batchGenerator_some by lia. rewrite Hbs. reflexivity. }
  split.
  - exists (Partitioner.Generator contentLength 0 0).
    split; [exact Hgen |]. split.
    + apply zero_batch_next. lia.
    + intros fuel maxFiles. apply zero_batch_dispatch. lia.
  - intros fuel. rewrite (parallelDownload_probed lib w fuel _ _ _ _ s Hprobe).
    unfold afterProbe. rewrite bind_unfold. cbn [newProgress].
    rewrite Hgen. rewrite zero_batch_dispatch by lia. reflexivity.
Qed.

Lemma example_probed (status : Z) (failing : option (Z * Z)) :
  probed Examples.parsers
    (Examples.world (Examples.probeHeader true "8" []) status failing)
    "http://example.com/pub/file.bin" "file.bin" 8.
Proof.
  exists "file.bin"%string, (Examples.probeHeader true "8" []), ""%string.
  repeat split; vm_compute; reflexivity.
Defined.

Lemma parallelDownload_spins_above_length_witness :
  (exists g,
     Partitioner.batchGenerator 8 9 = Some g
     /\ Partitioner.next g = (g, (0, u64 (0 - 1)))
     /\ forall fuel maxFiles, dispatch fuel g maxFiles = None)
  /\ forall fuel,
       parallelDownload Examples.parsers
         (Examples.world (Examples.probeHeader true "8" []) 206 None)
         fuel "http://example.com/pub/file.bin" 9 Examples.emptyDisk = Spinning.
Proof.
  apply (parallelDownload_spins_above_length _ _ _ "file.bin" 8 9).
  - exact (example_probed 206 None).
  - lia.
Defined.

(** C4.  When the batch size is 1 the first range is the single byte (0, 0),
    the very pair the loop reads as "no more ranges": the partition has one
    range per byte, yet the dispatch loop leaves at once with no task
    spawned and [maxFiles] = 0, and with no chunk 0 on disk
    [parallelDownload] panics at the opening of it. *)
Theorem parallelDownload_unit_batch_spawns_nothing
  (lib : Go.parsers) (w : world) (downloadURL fileName : string)
  (contentLength parallelRequests : Z) (s : state) :
  probed lib w downloadURL fileName contentLength ->
  1 <= parallelRequests -> contentLength / parallelRequests = 1 ->
  contentLength < 2 ^ 64 ->
  files s !! chunkName fileName 0 = None ->
  (exists g rs,
     Partitioner.batchGenerator contentLength parallelRequests = Some g
     /\ Partitioner.exhausted g = false
     /\ snd (Partitioner.next g) = (0, 0)
     /\ Partitioner.emitted (S (Z.to_nat contentLength)) g = Some rs
     /\ Partitioner.covers 0 rs contentLength
     /\ (0 < length rs)%nat
     /\ forall fuel, dispatch (S fuel) g 0 = Some ([], 0))
  /\ forall fuel,
       parallelDownload lib w (S fuel) downloadURL parallelRequests s
       = Panicked (ErrNotExist (chunkName fileName 0))
           {| files := files s;
              progress := {| maxBytes := contentLength; readBytes := 0 |} |}.
Proof.
  intros Hprobe Hn Hbs Hfit Hdisk.
  assert (Hcl : 1 <= contentLength).
  { pose proof (Z.mul_div_le contentLength parallelRequests). nia. }
  assert (Hgen : Partitioner.batchGenerator contentLength parallelRequests
                 = Some (Partitioner.Generator contentLength 1 0)).
  { rewrite batchGenerator_some by lia. rewrite Hbs. reflexivity. }
  assert (Hnext : Partitioner.next (Partitioner.Generator contentLength 1 0)
                  = (Partitioner.Generator contentLength 1 1, (0, 0))).
  { rewrite next_in_range by lia. rewrite Z.min_r by lia. reflexivity. }
  assert (Hd : forall fuel,
             dispatch (S fuel) (Partitioner.Generator contentLength 1 0) 0 = Some ([], 0)).
  { intros fuel. rewrite dispatch_S, Hnext. reflexivity. }
  split.
  - destruct (emitted_covers (Z.to_nat contentLength) contentLength 1 0)
      as (rs & Hrs & Hcov); try lia.
    exists (Partitioner.Generator contentLength 1 0), rs.
    split; [exact Hgen |].
    split; [unfold Partitioner.exhausted; cbn; apply Z.leb_gt; lia |].
    split; [rewrite Hnext; reflexivity |].
    split; [exact Hrs |]. split; [exact Hcov |].
    split; [| exact Hd].
    destruct rs; [cbn in Hcov; lia | cbn; lia].
  - intros fuel. rewrite (parallelDownload_probed lib w _ _ _ _ _ s Hprobe).
    unfold afterProbe. run_known. rewrite Hgen, Hd.
    unfold reassemble. run_known. rewrite Hdisk. reflexivity.
Qed.

Lemma parallelDownload_unit_batch_spawns_nothing_witness :
  (exists g rs,
     Partitioner.batchGenerator 8 8 = Some g
     /\ Partitioner.exhausted g = false
     /\ snd (Partitioner.next g) = (0, 0)
     /\ Partitioner.emitted (S (Z.to_nat 8)) g = Some rs
     /\ Partitioner.covers 0 rs 8
     /\ (0 < length rs)%nat
     /\ forall fuel, dispatch (S fuel) g 0 = Some ([], 0))
  /\ forall fuel,
       parallelDownload Examples.parsers
         (Examples.world (Examples.probeHeader true "8" []) 206 None)
         (S fuel) "http://example.com/pub/file.bin" 8 Examples.emptyDisk
       = Panicked (ErrNotExist (chunkName "file.bin" 0))
           {| files := files Examples.emptyDisk;
              progress := {| maxBytes := 8; readBytes := 0 |} |}.
Proof.
  apply (parallelDownload_unit_batch_spawns_nothing _ _ _ "file.bin" 8 8).
  - exact (example_probed 206 None).
  - lia.
  - reflexivity.
  - vm_compute. reflexivity.
  - reflexivity.
Defined.

(** ** Chunk names *)

Lemma chunkName_inj fileName i j : chunkName fileName i = chunkName fileName j -> i = j.
Proof.
  unfold chunkName. intros H.
  apply (inj (String.append fileName)) in H.
  apply (inj (String.append ".")) in H.
  apply (inj pretty) in H. exact H.
Qed.

Lemma length_append (s t : string) :
  String.length (s +:+ t) = (String.length s + String.length t)%nat.
Proof.
  induction s as [| c s IH]; [reflexivity |].
  change (S (String.length (s +:+ t)) = S (String.length s + String.length t)).
  f_equal. exact IH.
Qed.

Lemma chunkName_longer fileName i :
  (String.length fileName < String.length (chunkName fileName i))%nat.
Proof.
  unfold chunkName. rewrite !length_append. cbn. lia.
Qed.

Lemma chunkName_not_base fileName i : chunkName fileName i <> fileName.
Proof.
  intros H. pose proof (chunkName_longer fileName i) as Hl. rewrite H in Hl. lia.
Qed.

(** ** Reassembly *)

Section ReassemblyFacts.

Context (w : world) (fileName : string) (chunks : list bytes).

Hypothesis writes : WriteErr w (chunkName fileName 0) = None.
Hypothesis removes :
  forall i, (1 <= i < length chunks)%nat -> RemoveErr w (chunkName fileName (Z.of_nat i)) = None.

Lemma writeFailure_none d : writeFailure w (chunkName fileName 0) d = None.
Proof. unfold writeFailure. destruct d; [reflexivity | exact writes]. Qed.

(** One round: chunk [k + 1] goes to the end of chunk 0 and is removed. *)
Lemma mergeChunk_round fs0 s k c :
  mergedUpTo fileName chunks fs0 (files s) k ->
  chunks !! S k = Some c ->
  exists s',
    mergeChunk w fileName (Z.of_nat (S k)) s = Done tt s'
    /\ files s' = delete (chunkName fileName (Z.of_nat (S k)))
                    (alter (fun base => base ++ c) (chunkName fileName 0) (files s))
    /\ progress s' = progress s
    /\ mergedUpTo fileName chunks fs0 (files s') (S k).
Proof.
  intros (Hbase & Hgone & Hlater & Hother) Hc.
  assert (Hlen : (S k < length chunks)%nat) by (apply lookup_lt_Some in Hc; exact Hc).
  assert (Hne : chunkName fileName (Z.of_nat (S k)) <> chunkName fileName 0).
  { intros H. apply chunkName_inj in H. lia. }
  eexists. split; [| split; [| split]].
  - unfold mergeChunk. run_known.
    rewrite (Hlater (S k) c) by (auto with lia).
    rewrite writeFailure_none. rewrite removes by lia. run_known. reflexivity.
  - reflexivity.
  - reflexivity.
  - cbn [files]. split; [| split; [| split]].
    + rewrite lookup_delete_ne by exact Hne.
      rewrite lookup_alter_eq, Hbase. cbn.
      rewrite (take_S_r chunks (S k) c Hc), concat_app. cbn.
      rewrite app_nil_r. reflexivity.
    + intros j Hj. destruct (decide (j = S k)) as [-> | Hjk].
      * apply lookup_delete_eq.
      * rewrite lookup_delete_ne by (intros H; apply chunkName_inj in H; lia).
        rewrite lookup_alter_ne by (intros H; apply chunkName_inj in H; lia).
        apply Hgone. lia.
    + intros j d Hj Hd.
      rewrite lookup_delete_ne by (intros H; apply chunkName_inj in H; lia).
      rewrite lookup_alter_ne by (intros H; apply chunkName_inj in H; lia).
      apply Hlater; [lia | exact Hd].
    + intros p Hp.
      rewrite lookup_delete_ne by (intros H; apply (Hp (S k)); [lia | symmetry; exact H]).
      rewrite lookup_alter_ne.
      * apply Hother. exact Hp.
      * intros H. apply (Hp 0%nat); [lia | symmetry; exact H].
Qed.

(** The rounds for chunks [k + 1] to [k + m]. *)
Lemma mergeLoop_rounds fs0 (m : nat) : forall s k,
  mergedUpTo fileName chunks fs0 (files s) k ->
  (k + m < length chunks)%nat ->
  exists s',
    mergeLoop w fileName (seqZ (Z.of_nat (S k)) (Z.of_nat m)) s = Done tt s'
    /\ progress s' = progress s
    /\ mergedUpTo fileName chunks fs0 (files s') (k + m).
Proof.
  induction m as [| m IH]; intros s k Hinv Hlen.
  - exists s. rewrite seqZ_nil by lia. rewrite Nat.add_0_r. auto.
  - destruct (lookup_lt_is_Some_2 chunks (S k)) as [c Hc]; [lia |].
    destruct (mergeChunk_round fs0 s k c Hinv Hc) as (s1 & Hrun & _ & Hprog & Hinv1).
    destruct (IH s1 (S k) Hinv1) as (s' & Hloop & Hprog' & Hinv'); [lia |].
    exists s'. split; [| split].
    + rewrite seqZ_cons by lia. cbn [mergeLoop]. rewrite bind_unfold, Hrun.
      replace (Z.succ (Z.of_nat (S k))) with (Z.of_nat (S (S k))) by lia.
      replace (Z.pred (Z.of_nat (S m))) with (Z.of_nat m) by lia.
      exact Hloop.
    + congruence.
    + replace (k + S m)%nat with (S k + m)%nat by lia. exact Hinv'.
Qed.

End ReassemblyFacts.

(** The disk as the fetch tasks leave it is the start of the merge. *)
Lemma merge_start (fileName : string) (chunks : list bytes) (fs : gmap string bytes) :
  (0 < length chunks)%nat ->
  (forall i c, chunks !! i = Some c -> fs !! chunkName fileName (Z.of_nat i) = Some c) ->
  mergedUpTo fileName chunks fs fs 0.
Proof.
  intros Hn Hdisk.
  destruct chunks as [| c0 rest]; [cbn in Hn; lia |].
  split; [| split; [| split]].
  - pose proof (Hdisk 0%nat c0 eq_refl) as H0. change (Z.of_nat 0) with 0 in H0.
    rewrite H0. cbn. rewrite app_nil_r. reflexivity.
  - intros j Hj. lia.
  - intros j c _ Hc. apply Hdisk. exact Hc.
  - reflexivity.
Qed.

(** The renaming after the last round. *)
Lemma rename_after_merge (fileName : string) (chunks : list bytes)
  (fs0 fs : gmap string bytes) :
  (0 < length chunks)%nat ->
  mergedUpTo fileName chunks fs0 fs (length chunks - 1) ->
  let fs' := rename (chunkName fileName 0) fileName fs in
  fs' !! fileName = Some (concat chunks)
  /\ (forall i, (i < length chunks)%nat -> fs' !! chunkName fileName (Z.of_nat i) = None)
  /\ (forall p, p <> fileName ->
        (forall i, (i < length chunks)%nat -> p <> chunkName fileName (Z.of_nat i)) ->
        fs' !! p = fs0 !! p).
Proof.
  intros Hn (Hbase & Hgone & _ & Hother) fs'. subst fs'.
  replace (S (length chunks - 1)) with (length chunks) in Hbase by lia.
  rewrite firstn_all in Hbase.
  unfold rename. rewrite Hbase. split; [| split].
  - apply lookup_insert_eq.
  - intros i Hi.
    rewrite lookup_insert_ne by (apply not_eq_sym, chunkName_not_base).
    destruct i as [| i].
    + apply lookup_delete_eq.
    + rewrite lookup_delete_ne by (intros H; apply chunkName_inj in H; lia).
      apply Hgone. lia.
  - intros p Hp Hchunk.
    rewrite lookup_insert_ne by (apply not_eq_sym; exact Hp).
    rewrite lookup_delete_ne by (apply not_eq_sym, (Hchunk 0%nat); lia).
    apply Hother. exact Hchunk.
Qed.

(** Reassembly from a disk that holds the chunks. *)
Lemma reassemble_result (w : world) (fileName : string) (chunks : list bytes) (s : state) :
  (0 < length chunks)%nat ->
  (forall i c, chunks !! i = Some c ->
     files s !! chunkName fileName (Z.of_nat i) = Some c) ->
  WriteErr w (chunkName fileName 0) = None ->
  (forall i, (1 <= i < length chunks)%nat ->
     RemoveErr w (chunkName fileName (Z.of_nat i)) = None) ->
  RenameErr w (chunkName fileName 0) fileName = None ->
  exists sk,
    mergeLoop w fileName (seqZ 1 (Z.of_nat (length chunks - 1))) s = Done tt sk
    /\ mergedUpTo fileName chunks (files s) (files sk) (length chunks - 1)
    /\ reassemble w fileName (Z.of_nat (length chunks)) s
       = Done tt {| files := rename (chunkName fileName 0) fileName (files sk);
                    progress := progress s |}.
Proof.
  intros Hn Hdisk Hwrite Hremove Hrename.
  pose proof (merge_start fileName chunks (files s) Hn Hdisk) as Hstart.
  destruct (mergeLoop_rounds w fileName chunks Hwrite Hremove (files s)
              (length chunks - 1) s 0%nat Hstart) as (sk & Hloop & Hprog & Hinv); [lia |].
  change (Z.of_nat 1) with 1 in Hloop.
  exists sk. split; [exact Hloop |]. split; [exact Hinv |].
  unfold reassemble. run_known.
  destruct Hstart as (Hzero & _). rewrite Hzero.
  replace (Z.of_nat (length chunks) - 1) with (Z.of_nat (length chunks - 1)) by lia.
  run_known. rewrite Hloop, Hrename. run_known.
  unfold modifyFiles. rewrite Hprog. reflexivity.
Qed.

(** C7.  With the chunk files [<name>.0] to [<name>.(n-1)] on disk, n >= 1,
    and no copy, removal or renaming failing, reassembly returns.  After the
    rounds for chunks 1 to k, chunk 0 holds chunks 0 to k in index order,
    chunks 1 to k are removed and the later ones are untouched; at the end
    [<name>] holds the concatenation of all chunks in index order, no chunk
    file is left, and every other path is as it was. *)
Theorem reassemble_concatenates
  (w : world) (fileName : string) (chunks : list bytes) (s : state) :
  (0 < length chunks)%nat ->
  (forall i c, chunks !! i = Some c ->
     files s !! chunkName fileName (Z.of_nat i) = Some c) ->
  WriteErr w (chunkName fileName 0) = None ->
  (forall i, (1 <= i < length chunks)%nat ->
     RemoveErr w (chunkName fileName (Z.of_nat i)) = None) ->
  RenameErr w (chunkName fileName 0) fileName = None ->
  (forall k, (k < length chunks)%nat ->
     exists sk,
       mergeLoop w fileName (seqZ 1 (Z.of_nat k)) s = Done tt sk
       /\ mergedUpTo fileName chunks (files s) (files sk) k)
  /\ exists s',
       reassemble w fileName (Z.of_nat (length chunks)) s = Done tt s'
       /\ files s' !! fileName = Some (concat chunks)
       /\ (forall i, (i < length chunks)%nat ->
             files s' !! chunkName fileName (Z.of_nat i) = None)
       /\ (forall p, p <> fileName ->
             (forall i, (i < length chunks)%nat -> p <> chunkName fileName (Z.of_nat i)) ->
             files s' !! p = files s !! p)
       /\ progress s' = progress s.
Proof.
  intros Hn Hdisk Hwrite Hremove Hrename.
  split.
  - intros k Hk.
    pose proof (merge_start fileName chunks (files s) Hn Hdisk) as Hstart.
    destruct (mergeLoop_rounds w fileName chunks Hwrite Hremove (files s) k s 0%nat Hstart)
      as (sk & Hloop & _ & Hinv); [lia |].
    exists sk. split; [exact Hloop | exact Hinv].
  - destruct (reassemble_result w fileName chunks s Hn Hdisk Hwrite Hremove Hrename)
      as (sk & _ & Hinv & Hrun).
    destruct (rename_after_merge fileName chunks (files s) (files sk) Hn Hinv)
      as (Hfinal & Hgone & Hother).
    eexists. split; [exact Hrun |].
    cbn [files progress]. auto.
Qed.

Lemma reassemble_concatenates_witness :
  let w := Examples.world (Examples.probeHeader true "8" []) 206 None in
  let chunks := [Examples.slice 0 3; Examples.slice 4 7] in
  (forall k, (k < length chunks)%nat ->
     exists sk,
       mergeLoop w "file.bin" (seqZ 1 (Z.of_nat k)) Examples.fetchedDisk = Done tt sk
       /\ mergedUpTo "file.bin" chunks (files Examples.fetchedDisk) (files sk) k)
  /\ exists s',
       reassemble w "file.bin" (Z.of_nat (length chunks)) Examples.fetchedDisk = Done tt s'
       /\ files s' !! "file.bin" = Some (concat chunks)
       /\ (forall i, (i < length chunks)%nat ->
             files s' !! chunkName "file.bin" (Z.of_nat i) = None)
       /\ (forall p, p <> "file.bin" ->
             (forall i, (i < length chunks)%nat -> p <> chunkName "file.bin" (Z.of_nat i)) ->
             files s' !! p = files Examples.fetchedDisk !! p)
       /\ progress s' = progress Examples.fetchedDisk.
Proof.
  apply (reassemble_concatenates
           (Examples.world (Examples.probeHeader true "8" []) 206 None)
           "file.bin" [Examples.slice 0 3; Examples.slice 4 7] Examples.fetchedDisk).
  - cbn. lia.
  - intros [| [| i]] c H; cbn in H; inversion H; subst; vm_compute; reflexivity.
  - reflexivity.
  - intros i _. reflexivity.
  - reflexivity.
Defined.

(** ** The library pieces *)

Lemma isDigit_digitVal c : Go.isDigit c = true -> 0 <= Go.digitVal c <= 9.
Proof.
  unfold Go.isDigit, Go.digitVal. intros H.
  apply andb_true_iff in H. destruct H as [H1 H2].
  apply Nat.leb_le in H1. apply Nat.leb_le in H2. lia.
Qed.

Lemma decimalValue_ge s acc :
  Go.allDigits s = true -> 0 <= acc -> acc <= Go.decimalValue s acc.
Proof.
  revert acc. induction s as [| c s IH]; intros acc Hd Hacc; cbn in *; [lia |].
  apply andb_true_iff in Hd. destruct Hd as [Hc Hs].
  pose proof (isDigit_digitVal c Hc).
  specialize (IH (acc * 10 + Go.digitVal c) Hs). lia.
Qed.

(** [parseUintFrom] succeeds exactly on digits whose value fits, and then
    returns the value. *)
Lemma parseUintFrom_spec s n :
  0 <= n <= MaxUint64 ->
  (snd (Go.parseUintFrom s n) = None <->
     Go.allDigits s = true /\ Go.decimalValue s n <= MaxUint64)
  /\ (snd (Go.parseUintFrom s n) = None ->
        fst (Go.parseUintFrom s n) = Go.decimalValue s n).
Proof.
  revert n. induction s as [| c s IH]; intros n Hn.
  - cbn. split; [| reflexivity]. split; [intros _; split; [reflexivity | lia] | reflexivity].
  - cbn [Go.parseUintFrom Go.allDigits Go.decimalValue].
    destruct (Go.isDigit c) eqn:Hc.
    + pose proof (isDigit_digitVal c Hc) as Hd.
      destruct (Z.leb_spec (MaxUint64 / 10 + 1) n) as [Hcut | Hcut].
      * cbn [snd fst]. split; [| discriminate].
        split; [discriminate |]. intros [Hs Hv]. exfalso.
        pose proof (decimalValue_ge s (n * 10 + Go.digitVal c) Hs).
        change (MaxUint64 / 10 + 1) with 1844674407370955162 in Hcut.
        change MaxUint64 with 18446744073709551615 in *. lia.
      * destruct (Z.ltb_spec MaxUint64 (n * 10 + Go.digitVal c)) as [Hover | Hfit].
        -- cbn [snd fst]. split; [| discriminate].
           split; [discriminate |]. intros [Hs Hv]. exfalso.
           pose proof (decimalValue_ge s (n * 10 + Go.digitVal c) Hs). lia.
        -- cbn [andb]. apply IH. lia.
    + cbn [snd fst andb]. split; [| discriminate].
      split; [discriminate | intros [? _]; discriminate].
Qed.

(** X3.  [strconv.ParseUint(s, 10, 64)] returns no error exactly when [s] is
    a non-empty string of decimal digits whose value is at most 2^64 - 1,
    and the number it returns is then that value. *)
Theorem ParseUint_accepts (s : string) :
  (snd (Go.ParseUint s) = None <->
     s <> "" /\ Go.allDigits s = true /\ Go.decimalValue s 0 <= MaxUint64)
  /\ (snd (Go.ParseUint s) = None -> fst (Go.ParseUint s) = Go.decimalValue s 0).
Proof.
  destruct s as [| c s].
  - cbn. split; [| discriminate]. split; [discriminate | intros [H _]; contradiction].
  - unfold Go.ParseUint.
    destruct (parseUintFrom_spec (String c s) 0) as [Hiff Hval]; [vm_compute; split; discriminate |].
    split; [| exact Hval].
    rewrite Hiff. split; [intros [? ?]; repeat split; auto; discriminate | intros (_ & ? & ?); auto].
Qed.

(** X4.  [path.Base] never returns the empty string. *)
Theorem path_Base_not_empty (p : string) : Go.path_Base p <> "".
Proof.
  unfold Go.path_Base. destruct p as [| c p]; [discriminate |].
  destruct (rev (Go.untilSlash (Go.stripSlashes (rev (list_ascii_of_string (String c p))))))
    as [| a l] eqn:E; [discriminate |].
  cbn. discriminate.
Qed.

Lemma path_Base_empty : Go.path_Base "" = ".".
Proof. reflexivity. Qed.

(** ** The probe's header *)

(** C6, the claim at a header with a parsable [Content-Length] and the
    [Content-Disposition] value [;]: the extraction fails, with the error of
    the media type parser. *)
Lemma extract_fails_on_disposition :
  let header := Examples.probeHeader true "8" [";"] in
  Go.ParseUint (Go.Get header "Content-Length") = (8, None)
  /\ extractDownloadDetailsFromHeaders Examples.parsers header
     = ("", 8, Some (ErrMime "mime: no media type")).
Proof. split; vm_compute; reflexivity. Qed.

(** C6, as amended.  The extraction fails exactly when [Content-Length] does
    not parse as an unsigned 64-bit decimal number, or [Content-Disposition]
    is present with a non-empty value that [mime.ParseMediaType] rejects.  A
    header without [Content-Length] fails.  A header without
    [Content-Disposition] (or with an empty one) does not fail on its
    account and gives no file name; a value that parses gives its [filename]
    parameter, or no name if it has none. *)
Theorem extract_fails_iff (lib : Go.parsers) (header : Go.header) :
  (snd (extractDownloadDetailsFromHeaders lib header) <> None <->
     snd (Go.ParseUint (Go.Get header "Content-Length")) <> None
     \/ (Go.Get header "Content-Disposition" <> ""
         /\ exists e, Go.mime_ParseMediaType lib (Go.Get header "Content-Disposition") = inl e))
  /\ (header !! "Content-Length" = None ->
        snd (extractDownloadDetailsFromHeaders lib header) = Some ErrSyntax)
  /\ (forall n, Go.ParseUint (Go.Get header "Content-Length") = (n, None) ->
        Go.Get header "Content-Disposition" = "" ->
        extractDownloadDetailsFromHeaders lib header = ("", n, None))
  /\ (forall n mediatype params,
        Go.ParseUint (Go.Get header "Content-Length") = (n, None) ->
        Go.Get header "Content-Disposition" <> "" ->
        Go.mime_ParseMediaType lib (Go.Get header "Content-Disposition")
          = inr (mediatype, params) ->
        extractDownloadDetailsFromHeaders lib header
          = (default "" (params !! "filename"), n, None)).
Proof.
  assert (Hlen : forall v : string, (String.length v =? 0)%nat = true <-> v = "").
  { intros [| c v]; cbn; split; intros H; try reflexivity; discriminate. }
  unfold extractDownloadDetailsFromHeaders.
  split; [| split; [| split]].
  - destruct (Go.ParseUint (Go.Get header "Content-Length")) as [n [e |]]; cbn [snd].
    + split; [intros _; left; discriminate | discriminate].
    + destruct (String.length (Go.Get header "Content-Disposition") =? 0)%nat eqn:E.
      * apply Hlen in E. cbn [snd]. split; [contradiction |].
        intros [H | [H _]]; contradiction.
      * assert (Hne : Go.Get header "Content-Disposition" <> "").
        { intros H. apply Hlen in H. congruence. }
        destruct (Go.mime_ParseMediaType lib (Go.Get header "Content-Disposition"))
          as [e | [mt params]]; cbn [snd].
        -- split; [intros _; right; eauto | discriminate].
        -- split; [contradiction |].
           intros [H | (_ & e & H)]; [contradiction | discriminate].
  - intros Habsent. unfold Go.Get. rewrite Habsent. reflexivity.
  - intros n Hn Hcd. rewrite Hn, Hcd. reflexivity.
  - intros n mt params Hn Hcd Hparse. rewrite Hn.
    destruct (String.length (Go.Get header "Content-Disposition") =? 0)%nat eqn:E.
    + apply Hlen in E. contradiction.
    + rewrite Hparse. reflexivity.
Qed.

(** ** Errors of [parallelDownload] *)

Lemma afterProbe_result lib w fuel downloadURL fileName contentLength parallelRequests
  (s s' : state) (r : string * option error) :
  afterProbe lib w fuel downloadURL fileName contentLength parallelRequests s = Done r s' ->
  r = (fileName, None).
Proof.
  unfold afterProbe. rewrite bind_unfold. cbn [newProgress].
  destruct (Partitioner.batchGenerator contentLength parallelRequests) as [g |];
    [| discriminate].
  destruct (dispatch fuel g 0) as [[tasks maxFiles] |]; [| discriminate].
  rewrite bind_unfold.
  destruct (fetchAll lib w fileName downloadURL tasks _); [| discriminate | discriminate].
  rewrite bind_unfold.
  destruct (reassemble w fileName maxFiles _); [| discriminate | discriminate].
  cbn [mret M_ret]. intros H. inversion H. reflexivity.
Qed.

(** C10.  When [parallelDownload] returns an error, the range-unsupported
    one included, it returns the empty name and the state it was called in:
    no file was created, changed or removed, and the progress writer is
    untouched. *)
Theorem parallelDownload_error_leaves_disk
  (lib : Go.parsers) (w : world) (fuel : nat) (downloadURL : string)
  (parallelRequests : Z) (s s' : state) (name : string) (e : error) :
  parallelDownload lib w fuel downloadURL parallelRequests s = Done (name, Some e) s' ->
  s' = s /\ files s' = files s /\ name = "".
Proof.
  unfold parallelDownload.
  destruct (parseURLAndCaptureFilename lib downloadURL) as [fallback [e1 |]].
  { cbn [mret M_ret]. intros H. inversion H; subst. auto. }
  destruct (getHeaders lib w downloadURL) as [headers [e2 |]].
  { cbn [mret M_ret]. intros H. inversion H; subst. auto. }
  destruct (negb (String.eqb "bytes" (Go.Get headers "Accept-Ranges"))).
  { cbn [mret M_ret]. intros H. inversion H; subst. auto. }
  destruct (extractDownloadDetailsFromHeaders lib headers) as [[fn cl] [e3 |]].
  { cbn [mret M_ret]. intros H. inversion H; subst. auto. }
  intros H. apply afterProbe_result in H. discriminate.
Qed.

Lemma parallelDownload_error_leaves_disk_witness :
  let w := Examples.world (Examples.probeHeader false "8" []) 206 None in
  parallelDownload Examples.parsers w 10 "http://example.com/pub/file.bin" 2
    Examples.fetchedDisk = Done ("", Some ErrNoParallelDownload) Examples.fetchedDisk
  /\ (Examples.fetchedDisk = Examples.fetchedDisk
      /\ files Examples.fetchedDisk = files Examples.fetchedDisk /\ "" = "").
Proof.
  split; [vm_compute; reflexivity |].
  apply (parallelDownload_error_leaves_disk Examples.parsers
           (Examples.world (Examples.probeHeader false "8" []) 206 None)
           10 "http://example.com/pub/file.bin" 2 Examples.fetchedDisk Examples.fetchedDisk
           "" ErrNoParallelDownload).
  vm_compute. reflexivity.
Defined.

(** ** Fetch tasks *)

Section FetchFacts.

Context (lib : Go.parsers) (w : world).

Lemma probed_parses downloadURL fileName contentLength :
  probed lib w downloadURL fileName contentLength ->
  exists u, Go.url_Parse lib downloadURL = inr u.
Proof.
  intros (fallback & headers & name & Hparse & _).
  unfold parseURLAndCaptureFilename in Hparse.
  destruct (Go.url_Parse lib downloadURL) as [e | u]; [discriminate | eauto].
Qed.

Lemma dataWriter_outcome fileName (r : reader) s :
  dataWriter w fileName r s =
    match CreateErr w fileName with
    | Some e => Panicked e s
    | None =>
        match writeFailure w fileName (data r) with
        | Some e => Panicked e (created fileName s)
        | None =>
            match readErr r with
            | Some e => Panicked e (written fileName (data r) s)
            | None => Done tt (written fileName (data r) s)
            end
        end
    end.
Proof.
  unfold dataWriter.
  destruct (CreateErr w fileName); [reflexivity |].
  run_known.
  destruct (writeFailure w fileName (data r)); [reflexivity |].
  run_known.
  destruct (readErr r); reflexivity.
Qed.

Lemma fetchTask_outcome fileName downloadURL u (t : task) s :
  Go.url_Parse lib downloadURL = inr u ->
  fetchTask lib w fileName downloadURL t s =
    match RoundTrip w {| Method := "GET"; RawURL := downloadURL;
                         RangeHeader := Some (rangeValue (start t) (stop t)) |} with
    | inl e => Panicked e s
    | inr res => dataWriter w (chunkName fileName (index t)) (Body res) s
    end.
Proof.
  intros Hu. unfold fetchTask, downloadRangeBytes, NewRequest. rewrite Hu.
  cbn [Method RawURL].
  destruct (RoundTrip w _) as [e | res]; run_known; [reflexivity |].
  destruct (dataWriter w (chunkName fileName (index t)) (Body res) s) as [[] s0 | e s0 |];
    reflexivity.
Qed.

Lemma fetchTask_fails fileName downloadURL u (t : task) s :
  Go.url_Parse lib downloadURL = inr u ->
  taskFails w fileName downloadURL t ->
  exists e s', fetchTask lib w fileName downloadURL t s = Panicked e s'.
Proof.
  intros Hu Hfail. rewrite (fetchTask_outcome _ _ u _ _ Hu).
  unfold taskFails in Hfail.
  destruct (RoundTrip w _) as [e | res]; [eauto |].
  rewrite dataWriter_outcome.
  destruct (CreateErr w _); [eauto |].
  destruct (writeFailure w _ _); [eauto |].
  destruct (readErr _); [eauto |].
  destruct Hfail as [H | [H | H]]; contradiction.
Qed.

Lemma fetchTask_returns_unit fileName downloadURL u (t : task) s :
  Go.url_Parse lib downloadURL = inr u ->
  (exists e s', fetchTask lib w fileName downloadURL t s = Panicked e s')
  \/ (exists s', fetchTask lib w fileName downloadURL t s = Done tt s').
Proof.
  intros Hu. rewrite (fetchTask_outcome _ _ u _ _ Hu).
  destruct (RoundTrip w _) as [e | res]; [eauto |].
  rewrite dataWriter_outcome.
  destruct (CreateErr w _); [eauto |].
  destruct (writeFailure w _ _); [eauto |].
  destruct (readErr _); eauto.
Qed.

Lemma fetchAll_fails fileName downloadURL u (ts : list task) :
  Go.url_Parse lib downloadURL = inr u ->
  Exists (taskFails w fileName downloadURL) ts ->
  forall s, exists e s', fetchAll lib w fileName downloadURL ts s = Panicked e s'.
Proof.
  intros Hu Hex. induction Hex as [t ts Ht | t ts Hts IH]; intros s.
  - destruct (fetchTask_fails fileName downloadURL u t s Hu Ht) as (e & s' & H).
    exists e, s'. cbn [fetchAll]. rewrite bind_unfold, H. reflexivity.
  - cbn [fetchAll]. rewrite bind_unfold.
    destruct (fetchTask_returns_unit fileName downloadURL u t s Hu)
      as [(e & s' & H) | (s' & H)]; rewrite H; [eauto | apply IH].
Qed.

End FetchFacts.

(** C5, the claim on two runs of the eight-byte download with fan-out 2.
    When the transfer of the second range breaks, [parallelDownload] does
    not return an error: it panics, with chunk 0 left on disk.  When every
    ranged answer carries the status 404, nothing fails: the answers are
    written out as the file. *)
Lemma fetch_failure_is_not_reported :
  parallelDownload Examples.parsers
    (Examples.world (Examples.probeHeader true "8" []) 206 (Some (4, 7)))
    10 "http://example.com/pub/file.bin" 2 Examples.emptyDisk
  = Panicked (ErrTransport "connection reset")
      {| files := {[ "file.bin.0" := Examples.slice 0 3 ]};
         progress := {| maxBytes := 8; readBytes := 4 |} |}
  /\ parallelDownload Examples.parsers
       (Examples.world (Examples.probeHeader true "8" []) 404 None)
       10 "http://example.com/pub/file.bin" 2 Examples.emptyDisk
     = Done ("file.bin", None)
         {| files := {[ "file.bin" := Examples.payload ]};
            progress := {| maxBytes := 8; readBytes := 8 |} |}.
Proof. split; vm_compute; reflexivity. Qed.

(** C5, as amended.  Once the probe went through, a fetch task never hands
    an error to [parallelDownload]: a transfer that breaks, a chunk file
    that cannot be created, a failing write and a body that breaks off each
    end the task, and with it the process, in a panic; if any spawned task
    fails so, [parallelDownload] panics and returns nothing.  The status of
    an answer is not looked at: whatever it is, the body is written to the
    chunk file and counted, and the task completes. *)
Theorem fetch_failure_panics
  (lib : Go.parsers) (w : world) (downloadURL fileName : string) (contentLength : Z) :
  probed lib w downloadURL fileName contentLength ->
  (forall (t : task) (s : state),
     let chunk := chunkName fileName (index t) in
     let answer := RoundTrip w {| Method := "GET"; RawURL := downloadURL;
                                  RangeHeader := Some (rangeValue (start t) (stop t)) |} in
     (forall e, answer = inl e ->
        fetchTask lib w fileName downloadURL t s = Panicked e s)
     /\ (forall res e, answer = inr res -> CreateErr w chunk = Some e ->
           fetchTask lib w fileName downloadURL t s = Panicked e s)
     /\ (forall res e, answer = inr res -> CreateErr w chunk = None ->
           writeFailure w chunk (data (Body res)) = Some e ->
           fetchTask lib w fileName downloadURL t s
           = Panicked e {| files := <[chunk := []]> (files s); progress := progress s |})
     /\ (forall res e, answer = inr res -> CreateErr w chunk = None ->
           writeFailure w chunk (data (Body res)) = None ->
           readErr (Body res) = Some e ->
           exists s', fetchTask lib w fileName downloadURL t s = Panicked e s')
     /\ (forall res, answer = inr res -> CreateErr w chunk = None ->
           writeFailure w chunk (data (Body res)) = None ->
           readErr (Body res) = None ->
           exists s',
             fetchTask lib w fileName downloadURL t s = Done tt s'
             /\ files s' !! chunk = Some (data (Body res))
             /\ readBytes (progress s')
                = u64 (readBytes (progress s) + Z.of_nat (length (data (Body res))))))
  /\ (forall fuel parallelRequests g tasks maxFiles s,
        Partitioner.batchGenerator contentLength parallelRequests = Some g ->
        dispatch fuel g 0 = Some (tasks, maxFiles) ->
        Exists (taskFails w fileName downloadURL) tasks ->
        exists e s',
          parallelDownload lib w fuel downloadURL parallelRequests s = Panicked e s').
Proof.
  intros Hprobe. destruct (probed_parses lib w _ _ _ Hprobe) as [u Hu].
  split.
  - intros t s chunk answer. subst chunk answer.
    rewrite (fetchTask_outcome lib w _ _ u _ _ Hu).
    split; [| split; [| split; [| split]]].
    + intros e ->. reflexivity.
    + intros res e -> Hc. rewrite dataWriter_outcome, Hc. reflexivity.
    + intros res e -> Hc Hw. rewrite dataWriter_outcome, Hc, Hw. reflexivity.
    + intros res e -> Hc Hw Hr. rewrite dataWriter_outcome, Hc, Hw, Hr. eauto.
    + intros res -> Hc Hw Hr. rewrite dataWriter_outcome, Hc, Hw, Hr.
      eexists. split; [reflexivity |]. split; [apply lookup_insert_eq | reflexivity].
  - intros fuel n g tasks maxFiles s Hg Hd Hex.
    rewrite (parallelDownload_probed lib w fuel _ _ _ _ s Hprobe).
    unfold afterProbe. run_known. rewrite Hg, Hd. rewrite bind_unfold.
    destruct (fetchAll_fails lib w fileName downloadURL u tasks Hu Hex
                {| files := files s;
                   progress := {| maxBytes := contentLength; readBytes := 0 |} |})
      as (e & s' & H).
    rewrite H. eauto.
Qed.

Lemma fetch_failure_panics_witness :
  exists e s',
    parallelDownload Examples.parsers
      (Examples.world (Examples.probeHeader true "8" []) 206 (Some (4, 7)))
      10 "http://example.com/pub/file.bin" 2 Examples.emptyDisk
    = Panicked e s'.
Proof.
  destruct (fetch_failure_panics Examples.parsers
              (Examples.world (Examples.probeHeader true "8" []) 206 (Some (4, 7)))
              "http://example.com/pub/file.bin" "file.bin" 8
              (example_probed 206 (Some (4, 7)))) as [_ H].
  apply (H 10%nat 2 (Partitioner.Generator 8 4 0)
           [ {| index := 0; start := 0; stop := 3 |};
             {| index := 1; start := 4; stop := 7 |} ] 2 Examples.emptyDisk).
  - reflexivity.
  - vm_compute. reflexivity.
  - apply Exists_cons_tl, Exists_cons_hd. vm_compute. exact I.
Defined.

(** ** The name of the output *)

Lemma extract_without_disposition lib header :
  Go.Get header "Content-Disposition" = "" ->
  fst (fst (extractDownloadDetailsFromHeaders lib header)) = "".
Proof.
  intros Hcd. unfold extractDownloadDetailsFromHeaders. rewrite Hcd.
  destruct (Go.ParseUint (Go.Get header "Content-Length")) as [n [e |]]; reflexivity.
Qed.

(** C8.  For a URL whose path is empty, [path.Base] gives [.], which is not
    the empty string, so no default name takes its place: without a
    [Content-Disposition] header both [parallelDownload] and
    [serialDownload] go on with the name [.]; whenever they return without
    error the name returned is [.], and where [.] cannot be created
    [serialDownload] panics. *)
Theorem empty_path_resolves_to_dot
  (lib : Go.parsers) (w : world) (downloadURL : string) (u : Go.URL) :
  Go.url_Parse lib downloadURL = inr u -> Go.Path u = "" ->
  parseURLAndCaptureFilename lib downloadURL = (".", None)
  /\ (forall fuel parallelRequests s s' name headers,
        getHeaders lib w downloadURL = (headers, None) ->
        Go.Get headers "Content-Disposition" = "" ->
        parallelDownload lib w fuel downloadURL parallelRequests s = Done (name, None) s' ->
        name = ".")
  /\ (forall s s' name res,
        RoundTrip w {| Method := "GET"; RawURL := downloadURL; RangeHeader := None |}
          = inr res ->
        Go.Get (Header res) "Content-Disposition" = "" ->
        serialDownload lib w downloadURL s = Done (name, None) s' ->
        name = ".")
  /\ (forall s res n e,
        RoundTrip w {| Method := "GET"; RawURL := downloadURL; RangeHeader := None |}
          = inr res ->
        Go.Get (Header res) "Content-Disposition" = "" ->
        Go.ParseUint (Go.Get (Header res) "Content-Length") = (n, None) ->
        CreateErr w "." = Some e ->
        serialDownload lib w downloadURL s
        = Panicked e {| files := files s;
                        progress := {| maxBytes := n; readBytes := 0 |} |}).
Proof.
  intros Hu Hpath.
  assert (Hparse : parseURLAndCaptureFilename lib downloadURL = (".", None)).
  { unfold parseURLAndCaptureFilename. rewrite Hu, Hpath. reflexivity. }
  split; [exact Hparse |]. split; [| split].
  - intros fuel n s s' name headers Hhead Hcd.
    unfold parallelDownload. rewrite Hparse, Hhead.
    destruct (negb (String.eqb "bytes" (Go.Get headers "Accept-Ranges")));
      [cbn [mret M_ret]; intros H; inversion H |].
    pose proof (extract_without_disposition lib headers Hcd) as Hname.
    destruct (extractDownloadDetailsFromHeaders lib headers) as [[fn cl] [e |]];
      [cbn [mret M_ret]; intros H; inversion H |].
    cbn [fst] in Hname. subst fn. cbn [String.eqb].
    intros H. apply afterProbe_result in H. inversion H. reflexivity.
  - intros s s' name res Hres Hcd.
    unfold serialDownload, NewRequest. rewrite Hparse, Hu. cbn [String.eqb Ascii.eqb].
    rewrite Hres.
    pose proof (extract_without_disposition lib (Header res) Hcd) as Hname.
    destruct (extractDownloadDetailsFromHeaders lib (Header res)) as [[fn cl] [e |]];
      [cbn [mret M_ret]; intros H; inversion H |].
    cbn [fst] in Hname. subst fn. cbn [String.eqb].
    run_known.
    destruct (dataWriter w "." (Body res) _); [| discriminate | discriminate].
    cbn [mret M_ret]. intros H. inversion H. reflexivity.
  - intros s res n e Hres Hcd Hn Hcreate.
    unfold serialDownload, NewRequest. rewrite Hparse, Hu. cbn [String.eqb Ascii.eqb].
    rewrite Hres.
    unfold extractDownloadDetailsFromHeaders. rewrite Hn, Hcd. cbn [String.length Nat.eqb String.eqb].
    run_known.
    rewrite dataWriter_outcome, Hcreate. reflexivity.
Qed.

Lemma empty_path_resolves_to_dot_witness :
  let w := Examples.world (Examples.probeHeader true "8" []) 206 None in
  parallelDownload Examples.parsers w 10 "http://example.com" 2 Examples.emptyDisk
  = Done (".", None)
      {| files := {[ "..0" := Examples.payload ]};
         progress := {| maxBytes := 8; readBytes := 8 |} |}
  /\ serialDownload Examples.parsers w "http://example.com" Examples.emptyDisk
     = Panicked (ErrIO "is a directory")
         {| files := ∅; progress := {| maxBytes := 8; readBytes := 0 |} |}
  /\ parseURLAndCaptureFilename Examples.parsers "http://example.com" = (".", None).
Proof.
  split; [vm_compute; reflexivity |]. split; [vm_compute; reflexivity |].
  apply (empty_path_resolves_to_dot Examples.parsers
           (Examples.world (Examples.probeHeader true "8" []) 206 None)
           "http://example.com" {| Go.Path := "" |}); reflexivity.
Defined.

(** ** The progress counter under two writers *)

(** C9.  Two calls of [Write], of [a] and [b] bytes, on a counter at [r0].
    Run one after the other they leave [r0 + a + b].  Run as the program
    allows, with both reads before both writes, they leave [r0 + b]: the
    [a] bytes of the first call are lost. *)
Theorem write_race_loses_bytes (total r0 a b : Z) :
  0 <= r0 -> 0 < a -> 0 <= b -> r0 + a + b < 2 ^ 64 ->
  let p0 := {| maxBytes := total; readBytes := r0 |} in
  let returned := [ {| Race.len := a; Race.at_ := Race.Returned |};
                    {| Race.len := b; Race.at_ := Race.Returned |} ] in
  Race.run [0; 0; 1; 1]%nat p0 (Race.fresh [a; b])
  = ({| maxBytes := total; readBytes := r0 + a + b |}, returned)
  /\ Race.run [0; 1; 0; 1]%nat p0 (Race.fresh [a; b])
     = ({| maxBytes := total; readBytes := r0 + b |}, returned)
  /\ Race.allReturned returned = true
  /\ r0 + b <> r0 + a + b.
Proof.
  intros Hr Ha Hb Hfit p0 returned. subst p0 returned.
  split; [| split; [| split]].
  - cbn -[u64]. rewrite (u64_small (r0 + a)) by lia.
    rewrite (u64_small (r0 + a + b)) by lia. reflexivity.
  - cbn -[u64]. rewrite (u64_small (r0 + b)) by lia. reflexivity.
  - reflexivity.
  - lia.
Qed.

Lemma write_race_loses_bytes_witness :
  Race.run [0; 1; 0; 1]%nat {| maxBytes := 2; readBytes := 0 |} (Race.fresh [1; 1])
  = ({| maxBytes := 2; readBytes := 1 |},
     [ {| Race.len := 1; Race.at_ := Race.Returned |};
       {| Race.len := 1; Race.at_ := Race.Returned |} ]).
Proof.
  destruct (write_race_loses_bytes 2 0 1 1) as (_ & H & _); [lia | lia | lia | vm_compute; reflexivity |].
  exact H.
Defined.

(** ** A download that goes through *)

Section WholeRun.

Context (lib : Go.parsers) (w : world) (fileName downloadURL : string) (u : Go.URL).

Hypothesis parses : Go.url_Parse lib downloadURL = inr u.



End WholeRun.

Lemma reported_readBytes (p : progressWriter) (ds : list bytes) :
  maxBytes (reported p ds) = maxBytes p
  /\ readBytes (reported p ds)
     = match ds with
       | [] => readBytes p
       | _ => u64 (readBytes p + Z.of_nat (length (concat ds)))
       end.
Proof.
  revert p. induction ds as [| d ds IH]; intros p; [split; reflexivity |].
  unfold reported. cbn [foldl]. fold (reported (fst (Write p d)) ds).
  destruct (IH (fst (Write p d))) as [Hm Hr]. split; [rewrite Hm; reflexivity |].
  rewrite Hr. cbn [Write fst readBytes concat]. rewrite length_app.
  destruct ds as [| d' ds'].
  - cbn [concat length]. rewrite Nat.add_0_r. reflexivity.
  - unfold u64. rewrite Zplus_mod_idemp_l. f_equal. lia.
Qed.



(** ** The partition in closed form *)

Lemma rangeCount_spec cl bs i :
  1 <= bs -> (i < rangeCount cl bs <-> i * bs < cl).
Proof.
  intros Hbs. unfold rangeCount.
  pose proof (Z.div_mod (cl + bs - 1) bs ltac:(lia)) as Hdm.
  pose proof (Z.mod_pos_bound (cl + bs - 1) bs ltac:(lia)) as Hmod.
  split; intros H; nia.
Qed.

Lemma rangeCount_nonneg cl bs : 1 <= bs -> 0 <= cl -> 0 <= rangeCount cl bs.
Proof. intros Hbs Hcl. unfold rangeCount. apply Z.div_pos; lia. Qed.

Lemma emitted_closed_form (k : nat) cl bs i :
  1 <= bs -> cl + bs <= 2 ^ 64 -> 0 <= i -> i * bs < cl + bs ->
  cl - i * bs <= Z.of_nat k ->
  Partitioner.emitted (S k) (Partitioner.Generator cl bs (i * bs))
  = Some (map (nthRange cl bs) (seqZ i (rangeCount cl bs - i))).
Proof.
  intros Hbs Hfit. revert i. induction k as [| k IH]; intros i Hi Hlt Hk.
  - rewrite emitted_exhausted by (apply exhausted_at; lia).
    rewrite seqZ_nil; [reflexivity |].
    pose proof (rangeCount_spec cl bs i Hbs). lia.
  - destruct (Z_lt_le_dec (i * bs) cl) as [Hin | Hout].
    + rewrite emitted_S. unfold Partitioner.exhausted.
      cbn [Partitioner.contentLength Partitioner.start].
      destruct (Z.leb_spec cl (i * bs)) as [? | _]; [lia |].
      rewrite next_in_range by lia.
      assert (Hcount : i < rangeCount cl bs) by (apply rangeCount_spec; lia).
      rewrite (seqZ_cons i) by lia. cbn [map].
      replace (i * bs + bs) with ((i + 1) * bs) by lia.
      destruct (Z_lt_le_dec cl ((i + 1) * bs)) as [Hover | Hunder].
      * rewrite emitted_exhausted by (apply exhausted_at; lia).
        rewrite seqZ_nil; [reflexivity |].
        pose proof (rangeCount_spec cl bs (Z.succ i) Hbs). lia.
      * rewrite (IH (i + 1)) by lia.
        replace (Z.succ i) with (i + 1) by lia.
        replace (Z.pred (rangeCount cl bs - i)) with (rangeCount cl bs - (i + 1)) by lia.
        reflexivity.
    + rewrite emitted_exhausted by (apply exhausted_at; lia).
      rewrite seqZ_nil; [reflexivity |].
      pose proof (rangeCount_spec cl bs i Hbs). lia.
Qed.

Lemma emitted_from_start cl bs :
  1 <= bs -> cl + bs <= 2 ^ 64 -> 0 <= cl ->
  Partitioner.emitted (S (Z.to_nat cl)) (Partitioner.Generator cl bs 0)
  = Some (map (nthRange cl bs) (seqZ 0 (rangeCount cl bs))).
Proof.
  intros Hbs Hfit Hcl.
  pose proof (emitted_closed_form (Z.to_nat cl) cl bs 0 Hbs Hfit) as H.
  rewrite Z.mul_0_l, !Z.sub_0_r in H. apply H; lia.
Qed.

Lemma after_exhausted g k :
  Partitioner.exhausted g = true -> Partitioner.after k g = g.
Proof.
  intros H. induction k as [| k IH]; [reflexivity |].
  cbn [Partitioner.after]. rewrite (next_exhausted g H). exact IH.
Qed.

(** The cursor after [k] calls, when nothing wraps. *)
Lemma after_cursor (k : nat) cl bs :
  1 <= bs -> cl + bs <= 2 ^ 64 -> 0 <= cl ->
  Partitioner.after k (Partitioner.Generator cl bs 0)
  = Partitioner.Generator cl bs (Z.min (Z.of_nat k) (rangeCount cl bs) * bs).
Proof.
  intros Hbs Hfit Hcl.
  pose proof (rangeCount_nonneg cl bs Hbs Hcl) as Hm.
  assert (Hgen : forall (k : nat) i, 0 <= i -> i * bs < cl + bs ->
            Partitioner.after k (Partitioner.Generator cl bs (i * bs))
            = Partitioner.Generator cl bs
                (Z.max i (Z.min (i + Z.of_nat k) (rangeCount cl bs)) * bs)).
  { clear k. intros k. induction k as [| k IH]; intros i Hi Hlt.
    - cbn [Partitioner.after]. f_equal. lia.
    - cbn [Partitioner.after].
      destruct (Z_lt_le_dec (i * bs) cl) as [Hin | Hout].
      + rewrite next_in_range by lia. cbn [fst].
        replace (i * bs + bs) with ((i + 1) * bs) by lia.
        rewrite IH by lia. f_equal.
        assert (i < rangeCount cl bs) by (apply rangeCount_spec; lia).
        f_equal. lia.
      + rewrite next_exhausted by (apply exhausted_at; lia). cbn [fst].
        rewrite after_exhausted by (apply exhausted_at; lia).
        pose proof (rangeCount_spec cl bs i Hbs).
        f_equal. f_equal. lia. }
  specialize (Hgen k 0 ltac:(lia) ltac:(lia)).
  rewrite Z.mul_0_l in Hgen. rewrite Hgen. f_equal. f_equal. lia.
Qed.

(** X6.  The generator in closed form.  For 1 <= fanOut <= contentLength
    and nothing wrapping, with batchSize = contentLength / fanOut and
    m = ceil(contentLength / batchSize): the call number k (from 0) returns
    the range from k * batchSize to min(contentLength, (k + 1) * batchSize) - 1
    while k < m, and the pair (0, 0) from then on, forever; the partition is
    the list of these m ranges. *)
Theorem partition_closed_form (contentLength fanOut : Z) :
  1 <= fanOut <= contentLength ->
  contentLength + contentLength / fanOut <= 2 ^ 64 ->
  let batchSize := contentLength / fanOut in
  let m := rangeCount contentLength batchSize in
  (forall fuel, (Z.to_nat contentLength < fuel)%nat ->
     Partitioner.partition fuel contentLength fanOut
     = Some (map (nthRange contentLength batchSize) (seqZ 0 m)))
  /\ (forall g, Partitioner.batchGenerator contentLength fanOut = Some g ->
        forall k : nat,
          snd (Partitioner.next (Partitioner.after k g))
          = if Z.of_nat k <? m then nthRange contentLength batchSize (Z.of_nat k)
            else (0, 0)).
Proof.
  intros Hn Hfit batchSize m. subst batchSize m.
  assert (Hbs : 1 <= contentLength / fanOut) by (apply Z.div_le_lower_bound; lia).
  pose proof (batchGenerator_some contentLength fanOut ltac:(lia)) as Hgen.
  split.
  - intros fuel Hfuel. unfold Partitioner.partition. rewrite Hgen.
    apply (emitted_enough (S (Z.to_nat contentLength))); [lia |].
    apply emitted_from_start; lia.
  - intros g Hg k. rewrite Hgen in Hg. inversion Hg; subst g.
    rewrite after_cursor by lia.
    pose proof (rangeCount_spec contentLength (contentLength / fanOut) (Z.of_nat k) Hbs) as Hk.
    pose proof (rangeCount_spec contentLength (contentLength / fanOut)
                  (rangeCount contentLength (contentLength / fanOut)) Hbs) as Hm.
    destruct (Z.ltb_spec (Z.of_nat k) (rangeCount contentLength (contentLength / fanOut)))
      as [Hlt | Hge].
    + rewrite Z.min_l by lia. rewrite next_in_range by lia. cbn [snd].
      unfold nthRange. do 3 f_equal. lia.
    + rewrite Z.min_r by lia.
      rewrite next_exhausted by (apply exhausted_at; lia). reflexivity.
Qed.

Lemma partition_closed_form_witness :
  (forall fuel, (Z.to_nat 11 < fuel)%nat ->
     Partitioner.partition fuel 11 2
     = Some (map (nthRange 11 (11 / 2)) (seqZ 0 (rangeCount 11 (11 / 2)))))
  /\ (forall g, Partitioner.batchGenerator 11 2 = Some g ->
        forall k : nat,
          snd (Partitioner.next (Partitioner.after k g))
          = if Z.of_nat k <? rangeCount 11 (11 / 2)
            then nthRange 11 (11 / 2) (Z.of_nat k) else (0, 0)).
Proof. apply (partition_closed_form 11 2); [lia | vm_compute; discriminate]. Defined.

Lemma lookup_ranges cl bs m (i : nat) r :
  map (nthRange cl bs) (seqZ 0 m) !! i = Some r ->
  r = nthRange cl bs (Z.of_nat i) /\ Z.of_nat i < m.
Proof.
  intros H. rewrite list_lookup_fmap in H.
  destruct (seqZ 0 m !! i) as [j |] eqn:E; [| discriminate].
  apply lookup_seqZ in E. destruct E as [-> Hi].
  cbn in H. inversion H. split; [reflexivity | exact Hi].
Qed.

(** X7.  How many ranges, and how long.  For 1 <= fanOut <= contentLength
    and nothing wrapping, the partition has at least fanOut and at most
    2 * fanOut - 1 ranges, and exactly fanOut of them when fanOut divides
    contentLength and only then; every range but the last has
    batchSize = contentLength / fanOut bytes, and the last has between 1 and
    batchSize bytes. *)
Theorem partition_count_and_sizes (contentLength fanOut : Z) :
  1 <= fanOut <= contentLength ->
  contentLength + contentLength / fanOut <= 2 ^ 64 ->
  exists rs,
    Partitioner.partition (S (Z.to_nat contentLength)) contentLength fanOut = Some rs
    /\ fanOut <= Z.of_nat (length rs) <= 2 * fanOut - 1
    /\ (Z.of_nat (length rs) = fanOut <-> contentLength mod fanOut = 0)
    /\ (forall i r, rs !! i = Some r -> (S i < length rs)%nat ->
          Partitioner.size r = contentLength / fanOut)
    /\ (forall r, last rs = Some r ->
          1 <= Partitioner.size r <= contentLength / fanOut).
Proof.
  intros Hn Hfit.
  assert (Hbs : 1 <= contentLength / fanOut) by (apply Z.div_le_lower_bound; lia).
  pose proof (batchGenerator_some contentLength fanOut ltac:(lia)) as Hgen.
  pose proof (Z.div_mod contentLength fanOut ltac:(lia)) as Hdm.
  pose proof (Z.mod_pos_bound contentLength fanOut ltac:(lia)) as Hmod.
  set (bs := contentLength / fanOut) in *.
  set (m := rangeCount contentLength bs).
  pose proof (rangeCount_nonneg contentLength bs Hbs ltac:(lia)) as Hm0.
  assert (Hspec : forall i, i < m <-> i * bs < contentLength)
    by (intros i; apply rangeCount_spec; exact Hbs).
  exists (map (nthRange contentLength bs) (seqZ 0 m)).
  assert (Hlen : Z.of_nat (length (map (nthRange contentLength bs) (seqZ 0 m))) = m).
  { rewrite length_map, length_seqZ. lia. }
  split; [| split; [| split; [| split]]].
  - unfold Partitioner.partition. rewrite Hgen.
    apply emitted_from_start; lia.
  - rewrite Hlen. pose proof (Hspec (fanOut - 1)). pose proof (Hspec (2 * fanOut - 1)).
    split; nia.
  - rewrite Hlen. pose proof (Hspec (fanOut - 1)). pose proof (Hspec fanOut).
    split; intros Heq; nia.
  - intros i r Hr Hi. apply lookup_ranges in Hr. destruct Hr as [-> Hlt].
    assert (Z.of_nat i + 1 < m) by lia.
    pose proof (Hspec (Z.of_nat i + 1)).
    unfold Partitioner.size, nthRange. cbn [fst snd]. rewrite Z.min_r by lia. lia.
  - intros r Hr. rewrite last_lookup in Hr. apply lookup_ranges in Hr.
    destruct Hr as [-> Hlt].
    assert (Hi : Z.of_nat (Nat.pred (length (map (nthRange contentLength bs) (seqZ 0 m))))
                 = m - 1) by lia.
    rewrite Hi. pose proof (Hspec (m - 1)). pose proof (Hspec m).
    unfold Partitioner.size, nthRange. cbn [fst snd].
    replace (m - 1 + 1) with m by lia. rewrite Z.min_l by lia. lia.
Qed.

Lemma partition_count_and_sizes_witness :
  exists rs,
    Partitioner.partition (S (Z.to_nat 11)) 11 2 = Some rs
    /\ 2 <= Z.of_nat (length rs) <= 2 * 2 - 1
    /\ (Z.of_nat (length rs) = 2 <-> 11 mod 2 = 0)
    /\ (forall i r, rs !! i = Some r -> (S i < length rs)%nat ->
          Partitioner.size r = 11 / 2)
    /\ (forall r, last rs = Some r -> 1 <= Partitioner.size r <= 11 / 2).
Proof. apply (partition_count_and_sizes 11 2); [lia | vm_compute; discriminate]. Defined.

(** ** The dispatch loop on any generator *)

Lemma dispatch_any (fuel : nat) : forall g idx ts n,
  dispatch fuel g idx = Some (ts, n) ->
  map rangeOf ts = Partitioner.calls (length ts) g
  /\ Forall (fun t => rangeOf t <> (0, 0)) ts
  /\ snd (Partitioner.next (Partitioner.after (length ts) g)) = (0, 0)
  /\ (- 2 ^ 63 <= idx -> idx + Z.of_nat (length ts) < 2 ^ 63 ->
      n = idx + Z.of_nat (length ts)
      /\ forall i t, ts !! i = Some t -> index t = idx + Z.of_nat i).
Proof.
  induction fuel as [| fuel IH]; intros g idx ts n H; [discriminate |].
  rewrite dispatch_S in H.
  destruct (Partitioner.next g) as [g' [a b]] eqn:Hnext.
  destruct ((a =? 0) && (b =? 0)) eqn:Hzero.
  - inversion H; subst ts n. cbn [length map Partitioner.calls Partitioner.after].
    rewrite Hnext. cbn [snd].
    apply andb_true_iff in Hzero. destruct Hzero as [Ha Hb].
    apply Z.eqb_eq in Ha. apply Z.eqb_eq in Hb. subst a b.
    split; [reflexivity |]. split; [constructor |]. split; [reflexivity |].
    intros _ _. split; [lia |]. intros i t Hi. discriminate.
  - destruct (dispatch fuel g' (int64 (idx + 1))) as [[ts' n'] |] eqn:Hrest; [| discriminate].
    inversion H; subst ts n. clear H.
    destruct (IH g' (int64 (idx + 1)) ts' n' Hrest) as (Hcalls & Hnz & Hend & Hidx).
    cbn [length map Partitioner.calls Partitioner.after]. rewrite Hnext. cbn [fst].
    split; [| split; [| split]].
    + unfold rangeOf at 1. cbn [start stop]. rewrite Hcalls. reflexivity.
    + constructor; [| exact Hnz].
      unfold rangeOf. cbn [start stop]. intros Heq. inversion Heq; subst a b.
      discriminate.
    + exact Hend.
    + intros Hlo Hhi. rewrite int64_small in Hidx by lia.
      destruct Hidx as [Hn Hi]; [lia | lia |].
      split; [lia |]. intros [| i] t Ht.
      * cbn in Ht. inversion Ht; subst t. cbn [index]. lia.
      * cbn in Ht. rewrite (Hi i t Ht). lia.
Qed.

(** X8.  Whatever the generator, when the dispatch loop of
    [parallelDownload] leaves it has spawned one task for each pair the
    generator returned before its first (0, 0), in that order and with those
    bounds, none of them being (0, 0) itself; and, below 2^63 tasks, the
    indices are 0, 1, 2, ... and [maxFiles] is the number of tasks. *)
Theorem dispatch_spawns_until_zero_pair
  (fuel : nat) (g : Partitioner.generator) (tasks : list task) (maxFiles : Z) :
  dispatch fuel g 0 = Some (tasks, maxFiles) ->
  map rangeOf tasks = Partitioner.calls (length tasks) g
  /\ Forall (fun t => rangeOf t <> (0, 0)) tasks
  /\ snd (Partitioner.next (Partitioner.after (length tasks) g)) = (0, 0)
  /\ (Z.of_nat (length tasks) < 2 ^ 63 ->
      maxFiles = Z.of_nat (length tasks)
      /\ forall i t, tasks !! i = Some t -> index t = Z.of_nat i).
Proof.
  intros H. destruct (dispatch_any fuel g 0 tasks maxFiles H) as (H1 & H2 & H3 & H4).
  split; [exact H1 |]. split; [exact H2 |]. split; [exact H3 |].
  intros Hlen. destruct H4 as [Hn Hi]; [lia | lia |].
  split; [lia |]. intros i t Ht. rewrite (Hi i t Ht). lia.
Qed.

Lemma dispatch_spawns_until_zero_pair_witness :
  let g := Partitioner.Generator 11 5 0 in
  let tasks := [ {| index := 0; start := 0; stop := 4 |};
                 {| index := 1; start := 5; stop := 9 |};
                 {| index := 2; start := 10; stop := 10 |} ] in
  map rangeOf tasks = Partitioner.calls (length tasks) g
  /\ Forall (fun t => rangeOf t <> (0, 0)) tasks
  /\ snd (Partitioner.next (Partitioner.after (length tasks) g)) = (0, 0)
  /\ (Z.of_nat (length tasks) < 2 ^ 63 ->
      3 = Z.of_nat (length tasks)
      /\ forall i t, tasks !! i = Some t -> index t = Z.of_nat i).
Proof.
  apply (dispatch_spawns_until_zero_pair 10 (Partitioner.Generator 11 5 0)).
  reflexivity.
Defined.

(** ** Lengths *)

Lemma emitted_unique fuel fuel' g rs rs' :
  Partitioner.emitted fuel g = Some rs -> Partitioner.emitted fuel' g = Some rs' ->
  rs = rs'.
Proof.
  intros H H'. destruct (Nat.le_ge_cases fuel fuel') as [Hle | Hle].
  - pose proof (emitted_enough fuel fuel' g rs Hle H). congruence.
  - pose proof (emitted_enough fuel' fuel g rs' Hle H'). congruence.
Qed.

Lemma covers_lengths lo rs hi (bodies : list bytes) :
  Partitioner.covers lo rs hi ->
  Forall2 (fun r d => Z.of_nat (length d) = Partitioner.size r) rs bodies ->
  Z.of_nat (length (concat bodies)) = hi - lo.
Proof.
  intros Hcov Hall. revert lo Hcov.
  induction Hall as [| [a b] d rs bodies Hd _ IH]; intros lo Hcov; cbn in Hcov.
  - cbn. lia.
  - destruct Hcov as (-> & Hab & Hcov). specialize (IH _ Hcov).
    cbn [concat]. rewrite length_app. unfold Partitioner.size in Hd. cbn [fst snd] in Hd.
    lia.
Qed.

Lemma reported_concat (p : progressWriter) (ds : list bytes) :
  0 <= readBytes p < 2 ^ 64 -> reported p ds = fst (Write p (concat ds)).
Proof.
  revert p. induction ds as [| d ds IH]; intros p Hp.
  - destruct p as [m r]. cbn in *. rewrite Z.add_0_r, u64_small by lia. reflexivity.
  - unfold reported. cbn [foldl]. fold (reported (fst (Write p d)) ds).
    rewrite IH.
    + cbn [Write fst maxBytes readBytes concat]. rewrite length_app.
      f_equal. unfold u64. rewrite Zplus_mod_idemp_l. f_equal. lia.
    + cbn [Write fst readBytes]. unfold u64. apply Z.mod_pos_bound. lia.
Qed.

(** X10.  Writes add up.  On a counter within 64 bits, a series of [Write]
    calls leaves the progress writer as one [Write] of all the bytes
    together would, the counter being the old one plus the total length
    modulo 2^64; [maxBytes] never changes, and every call returns the length
    of its data. *)
Theorem Write_adds_up (p : progressWriter) (ds : list bytes) :
  0 <= readBytes p < 2 ^ 64 ->
  reported p ds = fst (Write p (concat ds))
  /\ readBytes (reported p ds) = u64 (readBytes p + Z.of_nat (length (concat ds)))
  /\ maxBytes (reported p ds) = maxBytes p
  /\ forall d, snd (Write p d) = Z.of_nat (length d).
Proof.
  intros Hp.
  pose proof (reported_concat p ds Hp) as H.
  rewrite H. repeat split.
Qed.

Lemma Write_adds_up_witness :
  let p := {| maxBytes := 8; readBytes := 0 |} in
  let ds := [Examples.slice 0 3; Examples.slice 4 7] in
  reported p ds = fst (Write p (concat ds))
  /\ readBytes (reported p ds) = u64 (readBytes p + Z.of_nat (length (concat ds)))
  /\ maxBytes (reported p ds) = maxBytes p
  /\ forall d, snd (Write p d) = Z.of_nat (length d).
Proof.
  apply (Write_adds_up {| maxBytes := 8; readBytes := 0 |}
           [Examples.slice 0 3; Examples.slice 4 7]).
  cbn. lia.
Defined.

(** X9.  A server that keeps to the ranges.  For 1 <= fanOut <= contentLength
    and nothing wrapping, if every range of the partition is answered with
    exactly as many bytes as it spans, then all the bodies together are
    contentLength bytes, and the progress writer, having been told of each,
    ends at readBytes = maxBytes = contentLength. *)
Theorem honoured_ranges_add_up
  (contentLength fanOut : Z) (fuel : nat) (rs : list (Z * Z)) (bodies : list bytes) :
  1 <= fanOut <= contentLength ->
  contentLength + contentLength / fanOut <= 2 ^ 64 ->
  Partitioner.partition fuel contentLength fanOut = Some rs ->
  Forall2 (fun r d => Z.of_nat (length d) = Partitioner.size r) rs bodies ->
  Z.of_nat (length (concat bodies)) = contentLength
  /\ reported {| maxBytes := contentLength; readBytes := 0 |} bodies
     = {| maxBytes := contentLength; readBytes := contentLength |}.
Proof.
  intros Hn Hfit Hpart Hall.
  assert (Hbs : 1 <= contentLength / fanOut) by (apply Z.div_le_lower_bound; lia).
  unfold Partitioner.partition in Hpart.
  rewrite batchGenerator_some in Hpart by lia.
  destruct (emitted_covers (Z.to_nat contentLength) contentLength
              (contentLength / fanOut) 0) as (rs' & Hrs' & Hcov); try lia.
  rewrite (emitted_unique _ _ _ _ _ Hpart Hrs') in Hall.
  pose proof (covers_lengths 0 rs' contentLength bodies Hcov Hall) as Hlen.
  rewrite Z.sub_0_r in Hlen.
  split; [lia |].
  rewrite reported_concat by (cbn; lia).
  cbn [Write fst maxBytes readBytes]. rewrite Hlen.
  rewrite Z.add_0_l, u64_small by lia. reflexivity.
Qed.

Lemma honoured_ranges_add_up_witness :
  let bodies := [Examples.slice 0 3; Examples.slice 4 7] in
  Z.of_nat (length (concat bodies)) = 8
  /\ reported {| maxBytes := 8; readBytes := 0 |} bodies
     = {| maxBytes := 8; readBytes := 8 |}.
Proof.
  apply (honoured_ranges_add_up 8 2 10 [(0, 3); (4, 7)]).
  - lia.
  - vm_compute. discriminate.
  - reflexivity.
  - repeat constructor.
Defined.

(** ** What the download functions return *)

Lemma errors_Is_sentinel : errors_Is ErrNoParallelDownload ErrNoParallelDownload = true.
Proof. reflexivity. Qed.

Lemma ParseUint_error_foreign s n e :
  Go.ParseUint s = (n, Some e) -> errors_Is e ErrNoParallelDownload = false.
Proof.
  assert (H : forall s acc n e, Go.parseUintFrom s acc = (n, Some e) ->
            e = ErrRange \/ e = ErrSyntax).
  { clear. induction s as [| c s IH]; intros acc n e H; cbn in H; [discriminate |].
    destruct (Go.isDigit c); [| inversion H; auto].
    destruct (MaxUint64 / 10 + 1 <=? acc); [inversion H; auto |].
    destruct (MaxUint64 <? acc * 10 + Go.digitVal c); [inversion H; auto |].
    exact (IH _ _ _ H). }
  intros Hp. unfold Go.ParseUint in Hp. destruct s as [| c s].
  - inversion Hp. reflexivity.
  - destruct (H _ _ _ _ Hp) as [-> | ->]; reflexivity.
Qed.

Section ReturnFacts.

Context (lib : Go.parsers) (w : world).

Lemma extract_error_foreign header name n e :
  foreignErrors lib w ->
  extractDownloadDetailsFromHeaders lib header = (name, n, Some e) ->
  errors_Is e ErrNoParallelDownload = false.
Proof.
  intros (_ & Hmime & _). unfold extractDownloadDetailsFromHeaders.
  destruct (Go.ParseUint (Go.Get header "Content-Length")) as [m [e1 |]] eqn:Hp.
  - intros H. inversion H; subst. exact (ParseUint_error_foreign _ _ _ Hp).
  - destruct (String.length (Go.Get header "Content-Disposition") =? 0)%nat;
      [discriminate |].
    destruct (Go.mime_ParseMediaType lib (Go.Get header "Content-Disposition"))
      as [e1 | [mt params]] eqn:Hm; [| discriminate].
    intros H. inversion H; subst. exact (Hmime _ _ Hm).
Qed.

(** The probe, step by step. *)
Lemma parallelDownload_steps fuel downloadURL parallelRequests s :
  parallelDownload lib w fuel downloadURL parallelRequests s =
    match Go.url_Parse lib downloadURL with
    | inl e => Done ("", Some e) s
    | inr u =>
        match RoundTrip w (headRequest downloadURL) with
        | inl e => Done ("", Some (Wrap "http.head request failed" e)) s
        | inr res =>
            if String.eqb "bytes" (Go.Get (Header res) "Accept-Ranges")
            then
              match extractDownloadDetailsFromHeaders lib (Header res) with
              | (_, _, Some e) => Done ("", Some e) s
              | (_, contentLength, None) =>
                  afterProbe lib w fuel downloadURL (resolvedName lib (Header res) u)
                    contentLength parallelRequests s
              end
            else Done ("", Some ErrNoParallelDownload) s
        end
    end.
Proof.
  unfold parallelDownload, parseURLAndCaptureFilename, getHeaders, NewRequest, headRequest.
  destruct (Go.url_Parse lib downloadURL) as [e | u]; [reflexivity |].
  destruct (RoundTrip w _) as [e | res]; [reflexivity |].
  destruct (String.eqb "bytes" (Go.Get (Header res) "Accept-Ranges")); [| reflexivity].
  cbn [negb]. unfold resolvedName.
  destruct (extractDownloadDetailsFromHeaders lib (Header res)) as [[name cl] [e |]];
    reflexivity.
Qed.

Lemma serialDownload_steps downloadURL s :
  serialDownload lib w downloadURL s =
    match Go.url_Parse lib downloadURL with
    | inl e => Done ("", Some e) s
    | inr u =>
        match RoundTrip w (getRequest downloadURL) with
        | inl e => Done ("", Some e) s
        | inr res =>
            match extractDownloadDetailsFromHeaders lib (Header res) with
            | (_, _, Some e) => Done ("", Some e) s
            | (_, contentLength, None) =>
                let fileName := resolvedName lib (Header res) u in
                match dataWriter w fileName (Body res)
                        {| files := files s;
                           progress := {| maxBytes := contentLength; readBytes := 0 |} |}
                with
                | Done _ s' => Done (fileName, None) s'
                | Panicked e s' => Panicked e s'
                | Spinning => Spinning
                end
            end
        end
    end.
Proof.
  unfold serialDownload, parseURLAndCaptureFilename, NewRequest, getRequest.
  destruct (Go.url_Parse lib downloadURL) as [e | u]; [reflexivity |].
  assert (Hbase : (if String.eqb (Go.path_Base (Go.Path u)) "" then "index.html"%string
                   else Go.path_Base (Go.Path u)) = Go.path_Base (Go.Path u)).
  { destruct (String.eqb_spec (Go.path_Base (Go.Path u)) "") as [H | _]; [| reflexivity].
    unfold Go.path_Base in H. destruct (Go.Path u) as [| c p]; [discriminate |].
    destruct (rev _) in H; [discriminate |]. cbn in H. discriminate. }
  rewrite Hbase.
  destruct (RoundTrip w _) as [e | res]; [reflexivity |].
  unfold resolvedName.
  destruct (extractDownloadDetailsFromHeaders lib (Header res)) as [[name cl] [e |]];
    [reflexivity |].
  cbn [fst]. run_known. reflexivity.
Qed.


Lemma serialDownload_returns downloadURL s s' name err :
  serialDownload lib w downloadURL s = Done (name, err) s' ->
  err = None \/ (s' = s /\ name = "").
Proof.
  rewrite serialDownload_steps.
  destruct (Go.url_Parse lib downloadURL) as [e | u];
    [intros H; inversion H; auto |].
  destruct (RoundTrip w _) as [e | res]; [intros H; inversion H; auto |].
  destruct (extractDownloadDetailsFromHeaders lib (Header res)) as [[n cl] [e |]];
    [intros H; inversion H; auto |].
  cbv zeta. destruct (dataWriter w _ _ _); intros H; inversion H. auto.
Qed.

End ReturnFacts.

(** X11.  When the parallel path is refused.  With outside errors that are
    not the program's [ErrNoParallelDownload]: an error returned by
    [parallelDownload] is (or wraps) [ErrNoParallelDownload] exactly when
    the URL parsed, the HEAD request was answered and the answer's
    [Accept-Ranges] is not [bytes] (absent included); and in that case the
    function returns that very error with the empty name, whatever the rest
    of the header says. *)
Theorem parallelDownload_refuses_iff
  (lib : Go.parsers) (w : world) (fuel : nat) (downloadURL : string)
  (parallelRequests : Z) (s : state) :
  foreignErrors lib w ->
  (forall name e s',
     parallelDownload lib w fuel downloadURL parallelRequests s = Done (name, Some e) s' ->
     (errors_Is e ErrNoParallelDownload = true <->
        exists u res,
          Go.url_Parse lib downloadURL = inr u
          /\ RoundTrip w (headRequest downloadURL) = inr res
          /\ Go.Get (Header res) "Accept-Ranges" <> "bytes"))
  /\ (forall u res,
        Go.url_Parse lib downloadURL = inr u ->
        RoundTrip w (headRequest downloadURL) = inr res ->
        Go.Get (Header res) "Accept-Ranges" <> "bytes" ->
        parallelDownload lib w fuel downloadURL parallelRequests s
        = Done ("", Some ErrNoParallelDownload) s).
Proof.
  intros Hforeign. pose proof Hforeign as (Hurl & Hmime & Htransport).
  split.
  - intros name e s'. rewrite parallelDownload_steps.
    destruct (Go.url_Parse lib downloadURL) as [e1 | u] eqn:Hu.
    { intros H. inversion H; subst. rewrite (Hurl _ _ Hu).
      split; [discriminate | intros (u & res & Hcontra & _); discriminate]. }
    destruct (RoundTrip w (headRequest downloadURL)) as [e1 | res] eqn:Hres.
    { intros H. inversion H; subst.
      change (errors_Is (Wrap "http.head request failed" e1) ErrNoParallelDownload)
        with (errors_Is e1 ErrNoParallelDownload).
      rewrite (Htransport _ _ Hres).
      split; [discriminate | intros (u' & res & _ & Hcontra & _); discriminate]. }
    destruct (String.eqb_spec "bytes" (Go.Get (Header res) "Accept-Ranges")) as [Heq | Hne].
    + destruct (extractDownloadDetailsFromHeaders lib (Header res)) as [[n cl] [e1 |]] eqn:He.
      * intros H. inversion H; subst.
        rewrite (extract_error_foreign lib w _ _ _ _ Hforeign He).
        split; [discriminate |].
        intros (u' & res' & _ & Hres' & Hne). inversion Hres'; subst res'.
        exfalso. apply Hne. symmetry. exact Heq.
      * intros H. apply afterProbe_result in H. inversion H.
    + intros H. inversion H; subst.
      split; [| reflexivity]. intros _. exists u, res.
      repeat split; auto.
  - intros u res Hu Hres Hne. rewrite parallelDownload_steps, Hu, Hres.
    destruct (String.eqb_spec "bytes" (Go.Get (Header res) "Accept-Ranges")) as [Heq | _].
    + exfalso. apply Hne. symmetry. exact Heq.
    + reflexivity.
Qed.

Lemma example_foreign (probe : Go.header) (status : Z) (failing : option (Z * Z)) :
  foreignErrors Examples.parsers (Examples.world probe status failing).
Proof.
  split; [| split].
  - intros s e. cbn.
    destruct (String.eqb s "http://example.com"); [discriminate |].
    destruct (String.eqb s "http://example.com/pub/file.bin"); [discriminate |].
    intros H. inversion H. reflexivity.
  - intros v e. cbn.
    destruct (String.eqb v "attachment; filename=report.pdf"); [discriminate |].
    destruct (String.eqb v ";"); intros H; inversion H; reflexivity.
  - intros r e. cbn. unfold Examples.server.
    destruct (RangeHeader r) as [v |]; [| discriminate].
    destruct (String.eqb v (rangeValue 0 3)).
    { destruct (bool_decide (failing = Some (0, 3))); [| discriminate].
      intros H. inversion H. reflexivity. }
    destruct (String.eqb v (rangeValue 4 7)).
    { destruct (bool_decide (failing = Some (4, 7))); [| discriminate].
      intros H. inversion H. reflexivity. }
    intros H. inversion H. reflexivity.
Defined.

Lemma parallelDownload_refuses_iff_witness :
  let w := Examples.world (Examples.probeHeader false "8" []) 206 None in
  (forall name e s',
     parallelDownload Examples.parsers w 10 "http://example.com/pub/file.bin" 2
       Examples.emptyDisk = Done (name, Some e) s' ->
     (errors_Is e ErrNoParallelDownload = true <->
        exists u res,
          Go.url_Parse Examples.parsers "http://example.com/pub/file.bin" = inr u
          /\ RoundTrip w (headRequest "http://example.com/pub/file.bin") = inr res
          /\ Go.Get (Header res) "Accept-Ranges" <> "bytes"))
  /\ (forall u res,
        Go.url_Parse Examples.parsers "http://example.com/pub/file.bin" = inr u ->
        RoundTrip w (headRequest "http://example.com/pub/file.bin") = inr res ->
        Go.Get (Header res) "Accept-Ranges" <> "bytes" ->
        parallelDownload Examples.parsers w 10 "http://example.com/pub/file.bin" 2
          Examples.emptyDisk
        = Done ("", Some ErrNoParallelDownload) Examples.emptyDisk).
Proof.
  apply (parallelDownload_refuses_iff Examples.parsers
           (Examples.world (Examples.probeHeader false "8" []) 206 None)).
  apply example_foreign.
Defined.

(** X12.  The name of the output.  A download function that returns without
    error returns [resolvedName] of the parsed URL and of the header it
    read (the HEAD answer for [parallelDownload], the GET answer for
    [serialDownload]): the two functions name the file alike.  With a
    [Content-Length] that parses, that name is the [filename] parameter of
    [Content-Disposition], as it stands, when the header parses with a
    non-empty one, and [path.Base] of the URL's path when the header is
    absent or empty. *)
Theorem downloads_return_resolvedName
  (lib : Go.parsers) (w : world) (downloadURL : string) :
  (forall fuel parallelRequests s s' name,
     parallelDownload lib w fuel downloadURL parallelRequests s = Done (name, None) s' ->
     exists u res,
       Go.url_Parse lib downloadURL = inr u
       /\ RoundTrip w (headRequest downloadURL) = inr res
       /\ name = resolvedName lib (Header res) u)
  /\ (forall s s' name,
        serialDownload lib w downloadURL s = Done (name, None) s' ->
        exists u res,
          Go.url_Parse lib downloadURL = inr u
          /\ RoundTrip w (getRequest downloadURL) = inr res
          /\ name = resolvedName lib (Header res) u)
  /\ (forall header u n mediatype params f,
        Go.ParseUint (Go.Get header "Content-Length") = (n, None) ->
        Go.Get header "Content-Disposition" <> "" ->
        Go.mime_ParseMediaType lib (Go.Get header "Content-Disposition")
          = inr (mediatype, params) ->
        params !! "filename" = Some f -> f <> "" ->
        resolvedName lib header u = f)
  /\ (forall header u n,
        Go.ParseUint (Go.Get header "Content-Length") = (n, None) ->
        Go.Get header "Content-Disposition" = "" ->
        resolvedName lib header u = Go.path_Base (Go.Path u)).
Proof.
  split; [| split; [| split]].
  - intros fuel n s s' name. rewrite parallelDownload_steps.
    destruct (Go.url_Parse lib downloadURL) as [e | u]; [discriminate |].
    destruct (RoundTrip w (headRequest downloadURL)) as [e | res]; [discriminate |].
    destruct (String.eqb "bytes" _); [| discriminate].
    destruct (extractDownloadDetailsFromHeaders lib (Header res)) as [[fn cl] [e |]];
      [discriminate |].
    intros H. apply afterProbe_result in H. inversion H. eauto.
  - intros s s' name. rewrite serialDownload_steps.
    destruct (Go.url_Parse lib downloadURL) as [e | u]; [discriminate |].
    destruct (RoundTrip w (getRequest downloadURL)) as [e | res]; [discriminate |].
    destruct (extractDownloadDetailsFromHeaders lib (Header res)) as [[fn cl] [e |]];
      [discriminate |].
    cbv zeta. destruct (dataWriter w _ _ _); intros H; inversion H. eauto.
  - intros header u n mt params f Hn Hcd Hparse Hf Hne.
    unfold resolvedName, extractDownloadDetailsFromHeaders. rewrite Hn.
    destruct (String.length (Go.Get header "Content-Disposition") =? 0)%nat eqn:E.
    + destruct (Go.Get header "Content-Disposition"); [contradiction | discriminate].
    + rewrite Hparse, Hf. change (default "" (Some f)) with f. cbn [fst].
      destruct (String.eqb_spec f ""); [contradiction | reflexivity].
  - intros header u n Hn Hcd.
    unfold resolvedName, extractDownloadDetailsFromHeaders. rewrite Hn, Hcd. reflexivity.
Qed.

(** X13.  What the sequential download writes.  When [serialDownload]
    returns without error, the GET answer carried a [Content-Length] that
    parses and its body ended without error; the file of the returned name
    holds exactly that body, whatever it held before; no other path has
    changed; and the progress writer stands at the body's length (modulo
    2^64) of the announced [Content-Length]. *)
Theorem serialDownload_writes_body
  (lib : Go.parsers) (w : world) (downloadURL : string) (s s' : state) (name : string) :
  serialDownload lib w downloadURL s = Done (name, None) s' ->
  exists res contentLength,
    RoundTrip w (getRequest downloadURL) = inr res
    /\ Go.ParseUint (Go.Get (Header res) "Content-Length") = (contentLength, None)
    /\ readErr (Body res) = None
    /\ files s' = <[name := data (Body res)]> (files s)
    /\ progress s'
       = {| maxBytes := contentLength;
            readBytes := u64 (Z.of_nat (length (data (Body res)))) |}.
Proof.
  rewrite serialDownload_steps.
  destruct (Go.url_Parse lib downloadURL) as [e | u]; [discriminate |].
  destruct (RoundTrip w (getRequest downloadURL)) as [e | res]; [discriminate |].
  destruct (extractDownloadDetailsFromHeaders lib (Header res)) as [[fn cl] [e |]] eqn:He;
    [discriminate |].
  cbv zeta. rewrite dataWriter_outcome.
  destruct (CreateErr w _); [discriminate |].
  destruct (writeFailure w _ _); [discriminate |].
  destruct (readErr (Body res)) eqn:Hr; [discriminate |].
  intros H. inversion H; subst. exists res, cl.
  split; [reflexivity |]. split.
  { unfold extractDownloadDetailsFromHeaders in He.
    destruct (Go.ParseUint (Go.Get (Header res) "Content-Length")) as [m [e |]];
      [discriminate |].
    destruct (String.length _ =? 0)%nat; [inversion He; reflexivity |].
    destruct (Go.mime_ParseMediaType lib _) as [e | [mt params]];
      inversion He; reflexivity. }
  split; [exact Hr |]. split.
  - cbn [written files]. apply insert_insert_eq.
  - reflexivity.
Qed.

Lemma serialDownload_writes_body_witness :
  let w := Examples.world (Examples.probeHeader false "8" []) 206 None in
  exists res contentLength,
    RoundTrip w (getRequest "http://example.com/pub/file.bin") = inr res
    /\ Go.ParseUint (Go.Get (Header res) "Content-Length") = (contentLength, None)
    /\ readErr (Body res) = None
    /\ files {| files := {[ "file.bin" := Examples.payload ]};
                progress := {| maxBytes := 8; readBytes := 8 |} |}
       = <["file.bin" := data (Body res)]> (files Examples.emptyDisk)
    /\ progress {| files := {[ "file.bin" := Examples.payload ]};
                   progress := {| maxBytes := 8; readBytes := 8 |} |}
       = {| maxBytes := contentLength;
            readBytes := u64 (Z.of_nat (length (data (Body res)))) |}.
Proof.
  apply (serialDownload_writes_body Examples.parsers
           (Examples.world (Examples.probeHeader false "8" []) 206 None)
           "http://example.com/pub/file.bin" Examples.emptyDisk _ "file.bin").
  vm_compute. reflexivity.
Defined.

(** X14.  What the sequential download needs.  [serialDownload] returns an
    error, with the empty name and without having written anything, when
    the URL does not parse, the GET request is not answered, or the header
    of the answer gives no usable [Content-Length] or an unusable
    [Content-Disposition]; in particular an answer without [Content-Length]
    is refused although its body is at hand.  Whenever it returns an error
    the state is the one it was called in. *)
Theorem serialDownload_needs_length
  (lib : Go.parsers) (w : world) (downloadURL : string) (s : state) :
  (forall s' name e,
     serialDownload lib w downloadURL s = Done (name, Some e) s' -> s' = s /\ name = "")
  /\ (forall u res,
        Go.url_Parse lib downloadURL = inr u ->
        RoundTrip w (getRequest downloadURL) = inr res ->
        Header res !! "Content-Length" = None ->
        serialDownload lib w downloadURL s = Done ("", Some ErrSyntax) s)
  /\ (forall u res,
        Go.url_Parse lib downloadURL = inr u ->
        RoundTrip w (getRequest downloadURL) = inr res ->
        forall e, snd (extractDownloadDetailsFromHeaders lib (Header res)) = Some e ->
        serialDownload lib w downloadURL s = Done ("", Some e) s)
  /\ (forall e, Go.url_Parse lib downloadURL = inl e ->
        serialDownload lib w downloadURL s = Done ("", Some e) s)
  /\ (forall u e, Go.url_Parse lib downloadURL = inr u ->
        RoundTrip w (getRequest downloadURL) = inl e ->
        serialDownload lib w downloadURL s = Done ("", Some e) s).
Proof.
  split; [| split; [| split; [| split]]].
  - intros s' name e H. apply serialDownload_returns in H.
    destruct H as [H | H]; [discriminate | exact H].
  - intros u res Hu Hres Habsent. rewrite serialDownload_steps, Hu, Hres.
    unfold extractDownloadDetailsFromHeaders, Go.Get. rewrite Habsent. reflexivity.
  - intros u res Hu Hres e He. rewrite serialDownload_steps, Hu, Hres.
    destruct (extractDownloadDetailsFromHeaders lib (Header res)) as [[fn cl] err].
    cbn in He. subst err. reflexivity.
  - intros e Hu. rewrite serialDownload_steps, Hu. reflexivity.
  - intros u e Hu Hres. rewrite serialDownload_steps, Hu, Hres. reflexivity.
Qed.

(** ** [main] *)

Section MainFacts.

Context (lib : Go.parsers) (w : world).


End MainFacts.





(** ** [path.Base] *)

Lemma list_ascii_app (s t : string) :
  list_ascii_of_string (s +:+ t) = list_ascii_of_string s ++ list_ascii_of_string t.
Proof.
  induction s as [| c s IH]; [reflexivity |].
  change (c :: list_ascii_of_string (s +:+ t)
          = c :: (list_ascii_of_string s ++ list_ascii_of_string t)).
  f_equal. exact IH.
Qed.

Lemma untilSlash_no_slash r : existsb Go.isSlash (Go.untilSlash r) = false.
Proof.
  induction r as [| c r IH]; [reflexivity |]. cbn [Go.untilSlash].
  destruct (Go.isSlash c) eqn:E; [reflexivity |]. cbn. rewrite E. exact IH.
Qed.

Lemma untilSlash_app l r :
  existsb Go.isSlash l = false -> Go.untilSlash (l ++ Go.slash :: r) = l.
Proof.
  induction l as [| c l IH]; intros H.
  - reflexivity.
  - cbn in H. apply orb_false_iff in H. destruct H as [Hc Hl].
    cbn. rewrite Hc. f_equal. exact (IH Hl).
Qed.

Lemma untilSlash_all l :
  existsb Go.isSlash l = false -> Go.untilSlash l = l.
Proof.
  induction l as [| c l IH]; intros H; [reflexivity |].
  cbn in H. apply orb_false_iff in H. destruct H as [Hc Hl].
  cbn. rewrite Hc. f_equal. exact (IH Hl).
Qed.

Lemma stripSlashes_keeps l :
  match l with
  | [] => True
  | c :: _ => Go.isSlash c = false
  end -> Go.stripSlashes l = l.
Proof. destruct l as [| c l]; [reflexivity |]. cbn. intros ->. reflexivity. Qed.

Lemma existsb_rev {A : Type} (f : A -> bool) (l : list A) :
  existsb f (rev l) = existsb f l.
Proof.
  induction l as [| a l IH]; [reflexivity |].
  cbn. rewrite existsb_app, IH. cbn. rewrite orb_false_r. apply orb_comm.
Qed.

Lemma rev_head_not_slash (l : list ascii) :
  l <> [] -> existsb Go.isSlash l = false ->
  match rev l with
  | [] => True
  | c :: _ => Go.isSlash c = false
  end.
Proof.
  intros Hne Hno. rewrite <- (existsb_rev Go.isSlash l) in Hno.
  destruct (rev l) as [| c r]; [exact I |].
  cbn in Hno. apply orb_false_iff in Hno. tauto.
Qed.

Lemma string_nonempty_list (s : string) : s <> "" -> list_ascii_of_string s <> [].
Proof. destruct s; [contradiction | discriminate]. Qed.

(** The base of a path whose text ends with the slash-free, non-empty
    [name], after the reversed rest [r] (empty, or beginning with a slash). *)
Lemma path_Base_of_rev (p name : string) (r : list ascii) :
  name <> "" -> hasSlash name = false ->
  rev (list_ascii_of_string p) = rev (list_ascii_of_string name) ++ r ->
  r = [] \/ (exists r', r = Go.slash :: r') ->
  Go.path_Base p = name.
Proof.
  intros Hne Hno Hrev Hr. unfold hasSlash in Hno.
  pose proof (string_nonempty_list name Hne) as Hl.
  pose proof (rev_head_not_slash _ Hl Hno) as Hhead.
  assert (Hnorev : existsb Go.isSlash (rev (list_ascii_of_string name)) = false)
    by (rewrite existsb_rev; exact Hno).
  unfold Go.path_Base. destruct p as [| c p].
  { cbn in Hrev. symmetry in Hrev. apply app_eq_nil in Hrev. destruct Hrev as [Hrev _].
    apply (f_equal (@rev ascii)) in Hrev. rewrite rev_involutive in Hrev.
    cbn in Hrev. contradiction. }
  rewrite Hrev.
  assert (Hstrip : Go.stripSlashes (rev (list_ascii_of_string name) ++ r)
                   = rev (list_ascii_of_string name) ++ r).
  { apply stripSlashes_keeps.
    destruct (rev (list_ascii_of_string name)) as [| a l] eqn:E; [| exact Hhead].
    apply (f_equal (@rev ascii)) in E. rewrite rev_involutive in E. contradiction. }
  rewrite Hstrip.
  assert (Huntil : Go.untilSlash (rev (list_ascii_of_string name) ++ r)
                   = rev (list_ascii_of_string name)).
  { destruct Hr as [-> | [r' ->]].
    - rewrite app_nil_r. apply untilSlash_all. exact Hnorev.
    - apply untilSlash_app. exact Hnorev. }
  rewrite Huntil, rev_involutive.
  destruct (list_ascii_of_string name) as [| a l] eqn:E; [contradiction |].
  rewrite <- E. apply string_of_list_ascii_of_string.
Qed.

(** X17.  [path.Base] as the program uses it for the fallback name.  The
    result is [/] or has no slash in it; a path that ends in a non-empty,
    slash-free segment, alone or after a slash, has that segment as its
    base. *)
Theorem path_Base_last_segment :
  (forall p, Go.path_Base p = "/" \/ hasSlash (Go.path_Base p) = false)
  /\ (forall dir name, name <> "" -> hasSlash name = false ->
        Go.path_Base (dir +:+ "/" +:+ name) = name)
  /\ (forall name, name <> "" -> hasSlash name = false -> Go.path_Base name = name).
Proof.
  split; [| split].
  - intros p. unfold Go.path_Base. destruct p as [| c p]; [right; reflexivity |].
    destruct (rev (Go.untilSlash _)) as [| a l] eqn:E; [left; reflexivity |].
    right. unfold hasSlash. rewrite list_ascii_of_string_of_list_ascii.
    rewrite <- E, existsb_rev. apply untilSlash_no_slash.
  - intros dir name Hne Hno.
    apply (path_Base_of_rev _ name (Go.slash :: rev (list_ascii_of_string dir)) Hne Hno).
    + rewrite !list_ascii_app. cbn [list_ascii_of_string app].
      rewrite rev_app_distr. cbn [rev]. rewrite <- app_assoc. reflexivity.
    + right. eexists. reflexivity.
  - intros name Hne Hno.
    apply (path_Base_of_rev _ name [] Hne Hno).
    + rewrite app_nil_r. reflexivity.
    + left. reflexivity.
Qed.

(** ** Names of chunk files and Range headers *)

Lemma pretty_N_char_digit x : Go.isDigit (pretty_N_char x) = true.
Proof. unfold pretty_N_char. repeat case_match; reflexivity. Qed.

Lemma pretty_N_go_digits x : forall s,
  Go.allDigits s = true -> Go.allDigits (pretty_N_go x s) = true.
Proof.
  induction (N.lt_wf_0 x) as [x _ IH]. intros s Hs.
  destruct (N.eq_dec x 0%N) as [-> | Hx]; [rewrite pretty_N_go_0; exact Hs |].
  rewrite pretty_N_go_step by lia.
  apply IH; [apply N.div_lt; lia |].
  cbn [Go.allDigits]. rewrite pretty_N_char_digit. exact Hs.
Qed.

Lemma pretty_nonneg_digits (z : Z) : 0 <= z -> Go.allDigits (pretty z) = true.
Proof.
  intros Hz. destruct z as [| p | p]; [reflexivity | | lia].
  unfold pretty, pretty_Z, pretty, pretty_positive, pretty, pretty_N.
  destruct (decide (N.pos p = 0%N)); [reflexivity |].
  apply pretty_N_go_digits. reflexivity.
Qed.

Lemma split_at_dash (s1 s2 t1 t2 : string) :
  Go.allDigits s1 = true -> Go.allDigits s2 = true ->
  s1 +:+ "-" +:+ t1 = s2 +:+ "-" +:+ t2 -> s1 = s2 /\ t1 = t2.
Proof.
  revert s2. induction s1 as [| c s1 IH]; intros [| d s2] H1 H2 H.
  - inversion H. auto.
  - inversion H; subst d. cbn in H2. discriminate.
  - inversion H; subst c. cbn in H1. discriminate.
  - cbn in H1, H2. apply andb_true_iff in H1. apply andb_true_iff in H2.
    inversion H; subst d. destruct (IH s2) as [-> ->]; tauto.
Qed.

(** X18.  No two requests or chunk files are confused.  Chunk files of one
    download have different names for different indices, and none has the
    name of the final file; the value of the Range header determines the
    range it asks for. *)
Theorem names_are_unambiguous :
  (forall fileName i j, chunkName fileName i = chunkName fileName j <-> i = j)
  /\ (forall fileName i, chunkName fileName i <> fileName)
  /\ (forall a b c d, 0 <= a -> 0 <= c ->
        rangeValue a b = rangeValue c d -> a = c /\ b = d).
Proof.
  split; [| split].
  - intros fileName i j. split; [apply chunkName_inj | intros ->; reflexivity].
  - intros fileName i. apply chunkName_not_base.
  - intros a b c d Ha Hc H. unfold rangeValue in H.
    apply (inj (String.append "bytes=")) in H.
    apply split_at_dash in H; [| apply pretty_nonneg_digits; lia ..].
    destruct H as [Hac Hbd].
    split; [exact (inj pretty _ _ Hac) | exact (inj pretty _ _ Hbd)].
Qed.

(** ** The test of the repository *)

(** X19.  [TestBatchGenerator] against [batchGenerator].  The test expects
    each range with an exclusive stop, the closure returns the stop
    inclusive: of the eleven calls the test makes, the eight that return a
    range are reported as failures, each with a stop one less than
    expected, and only the three calls that return (0, 0) pass. *)
Theorem TestBatchGenerator_reports :
  Test.TestBatchGenerator
  = [(0, 2); (3, 5); (6, 8); (9, 10); (0, 4); (5, 9); (10, 10); (0, 4)]
  /\ length (flat_map snd Test.cases) = 11%nat
  /\ Forall2 (fun got expected => fst got = fst expected /\ snd got + 1 = snd expected)
       Test.TestBatchGenerator
       (List.filter (fun b => negb ((fst b =? 0) && (snd b =? 0))) (flat_map snd Test.cases)).
Proof.
  split; [reflexivity |]. split; [reflexivity |].
  vm_compute. repeat constructor.
Qed.

(** ** One ranged request *)

(** X20.  The outcomes of [downloadRangeBytes].  It returns an error only
    when the URL does not parse or the ranged request is not answered, and
    then nothing has been written; it returns nil only after the whole body
    of the answer, whatever its status, has been written to the file and
    reported; every failure of the file or of the body is a panic. *)
Theorem downloadRangeBytes_outcomes
  (lib : Go.parsers) (w : world) (fileName : string) (start stop : Z)
  (downloadURL : string) (s : state) :
  let request := {| Method := "GET"; RawURL := downloadURL;
                    RangeHeader := Some (rangeValue start stop) |} in
  let run := downloadRangeBytes lib w fileName start stop downloadURL s in
  (forall e s', run = Done (Some e) s' ->
     s' = s /\ (Go.url_Parse lib downloadURL = inl e
                \/ ((exists u, Go.url_Parse lib downloadURL = inr u)
                    /\ RoundTrip w request = inl e)))
  /\ (forall s', run = Done None s' ->
        exists res,
          RoundTrip w request = inr res
          /\ CreateErr w fileName = None
          /\ readErr (Body res) = None
          /\ s' = written fileName (data (Body res)) s)
  /\ (forall e s', run = Panicked e s' ->
        exists res,
          RoundTrip w request = inr res
          /\ (CreateErr w fileName = Some e
              \/ writeFailure w fileName (data (Body res)) = Some e
              \/ readErr (Body res) = Some e))
  /\ run <> Spinning.
Proof.
  cbv zeta. unfold downloadRangeBytes, NewRequest.
  destruct (Go.url_Parse lib downloadURL) as [e0 | u] eqn:Hu.
  { cbn [mret M_ret]. split; [| split; [| split]]; try discriminate.
    intros e s' H. inversion H; subst. auto. }
  cbn [Method RawURL].
  destruct (RoundTrip w _) as [e0 | res] eqn:Hres.
  { cbn [mret M_ret]. split; [| split; [| split]]; try discriminate.
    intros e s' H. inversion H; subst. split; [reflexivity |]. right. eauto. }
  rewrite bind_unfold, dataWriter_outcome.
  destruct (CreateErr w fileName) as [e0 |] eqn:Hc.
  { split; [| split; [| split]]; try discriminate.
    intros e s' H. inversion H; subst. eauto. }
  destruct (writeFailure w fileName (data (Body res))) as [e0 |] eqn:Hw.
  { split; [| split; [| split]]; try discriminate.
    intros e s' H. inversion H; subst. eauto 6. }
  destruct (readErr (Body res)) as [e0 |] eqn:Hr.
  { split; [| split; [| split]]; try discriminate.
    intros e s' H. inversion H; subst. eauto 6. }
  cbn [mret M_ret]. split; [| split; [| split]]; try discriminate.
  intros s' H. inversion H; subst. exists res. auto.
Qed.

(** ** Edge inputs of [parallelDownload] *)

Lemma dispatch_nothing_outcome lib w fuel downloadURL fileName contentLength
  parallelRequests g s :
  Partitioner.batchGenerator contentLength parallelRequests = Some g ->
  dispatch fuel g 0 = Some ([], 0) ->
  afterProbe lib w fuel downloadURL fileName contentLength parallelRequests s =
    let s0 := {| files := files s;
                 progress := {| maxBytes := contentLength; readBytes := 0 |} |} in
    match files s !! chunkName fileName 0 with
    | None => Panicked (ErrNotExist (chunkName fileName 0)) s0
    | Some _ =>
        match RenameErr w (chunkName fileName 0) fileName with
        | Some _ => Done (fileName, None) s0
        | None =>
            Done (fileName, None)
              {| files := rename (chunkName fileName 0) fileName (files s);
                 progress := progress s0 |}
        end
    end.
Proof.
  intros Hg Hd. unfold afterProbe. run_known. rewrite Hg, Hd.
  unfold reassemble. run_known.
  destruct (files s !! chunkName fileName 0); [| reflexivity].
  rewrite seqZ_nil by lia. run_known.
  destruct (RenameErr w _ _); reflexivity.
Qed.

(** X21.  Edge inputs of [parallelDownload], after a probe that went
    through.  A fan-out of 0 panics with a division by zero.  A content
    length of 0, or a batch size of 1, spawns no task: without a file
    [<name>.0] on disk the function panics at opening it, and with one left
    over from before it renames that file to the final name and returns it
    as the download, without error. *)
Theorem parallelDownload_edge_inputs
  (lib : Go.parsers) (w : world) (downloadURL fileName : string)
  (contentLength : Z) (s : state) :
  probed lib w downloadURL fileName contentLength ->
  let s0 := {| files := files s;
               progress := {| maxBytes := contentLength; readBytes := 0 |} |} in
  (forall fuel, parallelDownload lib w fuel downloadURL 0 s = Panicked ErrDivideByZero s0)
  /\ (forall fuel parallelRequests,
        1 <= parallelRequests ->
        contentLength = 0 \/ contentLength / parallelRequests = 1 ->
        (files s !! chunkName fileName 0 = None ->
         parallelDownload lib w (S fuel) downloadURL parallelRequests s
         = Panicked (ErrNotExist (chunkName fileName 0)) s0)
        /\ (forall stale,
              files s !! chunkName fileName 0 = Some stale ->
              RenameErr w (chunkName fileName 0) fileName = None ->
              exists s',
                parallelDownload lib w (S fuel) downloadURL parallelRequests s
                = Done (fileName, None) s'
                /\ files s' !! fileName = Some stale
                /\ files s' !! chunkName fileName 0 = None)).
Proof.
  intros Hprobe s0. subst s0. split.
  - intros fuel. rewrite (parallelDownload_probed lib w fuel _ _ _ _ s Hprobe).
    unfold afterProbe. run_known. reflexivity.
  - intros fuel n Hn Hcase.
    assert (Hd : exists g, Partitioner.batchGenerator contentLength n = Some g
                           /\ dispatch (S fuel) g 0 = Some ([], 0)).
    { eexists. split; [apply batchGenerator_some; lia |].
      rewrite dispatch_S. destruct Hcase as [-> | Hbs].
      - rewrite next_exhausted by (apply exhausted_at; lia). reflexivity.
      - rewrite Hbs.
        assert (1 <= contentLength)
          by (pose proof (Z.mul_div_le contentLength n); nia).
        unfold Partitioner.next. cbn [Partitioner.contentLength Partitioner.start
                                        Partitioner.batchSize].
        destruct (Z.leb_spec contentLength 0); [lia |].
        change (u64 (0 + 1)) with 1.
        destruct (Z.ltb_spec contentLength 1); [lia |]. reflexivity. }
    destruct Hd as (g & Hg & Hd).
    rewrite (parallelDownload_probed lib w _ _ _ _ _ s Hprobe).
    rewrite (dispatch_nothing_outcome lib w _ _ _ _ _ g s Hg Hd). cbv zeta.
    split.
    + intros Hnone. rewrite Hnone. reflexivity.
    + intros stale Hstale Hrename. rewrite Hstale, Hrename.
      eexists. split; [reflexivity |]. cbn [files]. unfold rename. rewrite Hstale.
      split; [apply lookup_insert_eq |].
      rewrite lookup_insert_ne by (apply not_eq_sym, chunkName_not_base).
      apply lookup_delete_eq.
Qed.

Lemma parallelDownload_edge_inputs_witness :
  let w := Examples.world (Examples.probeHeader true "8" []) 206 None in
  let s0 := {| files := files Examples.fetchedDisk;
               progress := {| maxBytes := 8; readBytes := 0 |} |} in
  (forall fuel,
     parallelDownload Examples.parsers w fuel "http://example.com/pub/file.bin" 0
       Examples.fetchedDisk = Panicked ErrDivideByZero s0)
  /\ (forall fuel parallelRequests,
        1 <= parallelRequests ->
        8 = 0 \/ 8 / parallelRequests = 1 ->
        (files Examples.fetchedDisk !! chunkName "file.bin" 0 = None ->
         parallelDownload Examples.parsers w (S fuel) "http://example.com/pub/file.bin"
           parallelRequests Examples.fetchedDisk
         = Panicked (ErrNotExist (chunkName "file.bin" 0)) s0)
        /\ (forall stale,
              files Examples.fetchedDisk !! chunkName "file.bin" 0 = Some stale ->
              RenameErr w (chunkName "file.bin" 0) "file.bin" = None ->
              exists s',
                parallelDownload Examples.parsers w (S fuel)
                  "http://example.com/pub/file.bin" parallelRequests Examples.fetchedDisk
                = Done ("file.bin", None) s'
                /\ files s' !! "file.bin" = Some stale
                /\ files s' !! chunkName "file.bin" 0 = None)).
Proof.
  apply (parallelDownload_edge_inputs Examples.parsers
           (Examples.world (Examples.probeHeader true "8" []) 206 None)
           "http://example.com/pub/file.bin" "file.bin" 8 Examples.fetchedDisk
           (example_probed 206 None)).
Defined.

(** ** The order of the fetch tasks *)

Section OrderFacts.

Context (lib : Go.parsers) (w : world) (fileName downloadURL : string) (u : Go.URL).

Hypothesis parses : Go.url_Parse lib downloadURL = inr u.

Lemma written_commute n1 n2 (d1 d2 : bytes) s :
  n1 <> n2 ->
  written n1 d1 (written n2 d2 s) = written n2 d2 (written n1 d1 s).
Proof.
  intros Hne. unfold written. cbn [files progress Write fst maxBytes readBytes].
  f_equal.
  - apply map_eq. intros k. rewrite !lookup_insert.
    repeat case_decide; congruence.
  - f_equal. unfold u64. rewrite !Zplus_mod_idemp_l. f_equal. lia.
Qed.

(** A task that completes leaves its chunk written, from any state. *)
Lemma fetchTask_done t s s' :
  fetchTask lib w fileName downloadURL t s = Done tt s' ->
  exists d, s' = written (chunkName fileName (index t)) d s
            /\ forall s0, fetchTask lib w fileName downloadURL t s0
                          = Done tt (written (chunkName fileName (index t)) d s0).
Proof.
  rewrite (fetchTask_outcome lib w _ _ u _ _ parses).
  destruct (RoundTrip w _) as [e | res] eqn:Hres; [discriminate |].
  rewrite dataWriter_outcome.
  destruct (CreateErr w _) eqn:Hc; [discriminate |].
  destruct (writeFailure w _ _) eqn:Hw; [discriminate |].
  destruct (readErr _) eqn:Hr; [discriminate |].
  intros H. inversion H. exists (data (Body res)). split; [reflexivity |].
  intros s0. rewrite (fetchTask_outcome lib w _ _ u _ _ parses), Hres.
  rewrite dataWriter_outcome, Hc, Hw, Hr. reflexivity.
Qed.

Lemma fetchAll_cons t ts s :
  fetchAll lib w fileName downloadURL (t :: ts) s =
    match fetchTask lib w fileName downloadURL t s with
    | Done _ s1 => fetchAll lib w fileName downloadURL ts s1
    | Panicked e s1 => Panicked e s1
    | Spinning => Spinning
    end.
Proof. reflexivity. Qed.

Lemma fetchAll_head_done t ts s s' :
  fetchAll lib w fileName downloadURL (t :: ts) s = Done tt s' ->
  exists s1, fetchTask lib w fileName downloadURL t s = Done tt s1
             /\ fetchAll lib w fileName downloadURL ts s1 = Done tt s'.
Proof.
  rewrite fetchAll_cons.
  destruct (fetchTask lib w fileName downloadURL t s) as [[] s1 | e s1 |];
    [| discriminate | discriminate].
  eauto.
Qed.

Lemma fetchAll_permuted ts ts' :
  Permutation ts ts' ->
  NoDup (map index ts) ->
  forall s s',
    fetchAll lib w fileName downloadURL ts s = Done tt s' ->
    fetchAll lib w fileName downloadURL ts' s = Done tt s'.
Proof.
  intros Hperm. induction Hperm as [| t ts ts' Hperm IH | t1 t2 ts | ts1 ts2 ts3 H12 IH12 H23 IH23];
    intros Hnd s s' Hrun.
  - exact Hrun.
  - apply fetchAll_head_done in Hrun. destruct Hrun as (s1 & Ht & Hrest).
    rewrite fetchAll_cons, Ht. apply IH; [| exact Hrest].
    cbn in Hnd. apply NoDup_cons in Hnd. tauto.
  - apply fetchAll_head_done in Hrun. destruct Hrun as (s1 & Ht2 & Hrest).
    apply fetchAll_head_done in Hrest. destruct Hrest as (s2 & Ht1 & Hrest).
    destruct (fetchTask_done _ _ _ Ht2) as (d2 & -> & Hany2).
    destruct (fetchTask_done _ _ _ Ht1) as (d1 & -> & Hany1).
    rewrite fetchAll_cons, Hany1, fetchAll_cons, Hany2.
    rewrite written_commute; [exact Hrest |].
    intros Heq. apply chunkName_inj in Heq.
    cbn in Hnd. apply NoDup_cons in Hnd. destruct Hnd as [Hnotin _].
    apply Hnotin. rewrite Heq. left.
  - apply IH23; [| apply IH12; assumption].
    pose proof (Permutation_map index H12) as Hp. rewrite <- Hp. exact Hnd.
Qed.

End OrderFacts.

Lemma fetchAll_ends lib w fileName downloadURL u ts s :
  Go.url_Parse lib downloadURL = inr u ->
  (exists s', fetchAll lib w fileName downloadURL ts s = Done tt s')
  \/ (exists e s', fetchAll lib w fileName downloadURL ts s = Panicked e s').
Proof.
  intros Hu. revert s. induction ts as [| t ts IH]; intros s.
  - left. exists s. reflexivity.
  - rewrite fetchAll_cons.
    destruct (fetchTask_returns_unit lib w fileName downloadURL u t s Hu)
      as [(e & s1 & H) | (s1 & H)]; rewrite H; [right; eauto | apply IH].
Qed.

(** X22.  The order of the fetch tasks does not matter.  For tasks of
    different indices, run one after the other in any two orders from the
    same state: if one order completes, the other completes in the very
    same state, files and progress alike; and if one order panics, so does
    the other. *)
Theorem fetch_order_is_immaterial
  (lib : Go.parsers) (w : world) (fileName downloadURL : string) (u : Go.URL)
  (ts ts' : list task) (s : state) :
  Go.url_Parse lib downloadURL = inr u ->
  Permutation ts ts' ->
  NoDup (map index ts) ->
  (forall s', fetchAll lib w fileName downloadURL ts s = Done tt s'
              <-> fetchAll lib w fileName downloadURL ts' s = Done tt s')
  /\ ((exists e s', fetchAll lib w fileName downloadURL ts s = Panicked e s')
      <-> (exists e s', fetchAll lib w fileName downloadURL ts' s = Panicked e s')).
Proof.
  intros Hu Hperm Hnd.
  assert (Hnd' : NoDup (map index ts')).
  { pose proof (Permutation_map index Hperm) as Hp. rewrite <- Hp. exact Hnd. }
  assert (Hiff : forall s', fetchAll lib w fileName downloadURL ts s = Done tt s'
                            <-> fetchAll lib w fileName downloadURL ts' s = Done tt s').
  { intros s'. split.
    - apply (fetchAll_permuted lib w fileName downloadURL u Hu ts ts' Hperm Hnd).
    - apply (fetchAll_permuted lib w fileName downloadURL u Hu ts' ts
               (Permutation_sym Hperm) Hnd'). }
  split; [exact Hiff |].
  split; intros (e & s1 & Hp).
  - destruct (fetchAll_ends lib w fileName downloadURL u ts' s Hu) as [(s' & H) | H];
      [| exact H].
    apply Hiff in H. congruence.
  - destruct (fetchAll_ends lib w fileName downloadURL u ts s Hu) as [(s' & H) | H];
      [| exact H].
    apply Hiff in H. congruence.
Qed.

Lemma fetch_order_is_immaterial_witness :
  let w := Examples.world (Examples.probeHeader true "8" []) 206 None in
  let t0 := {| index := 0; start := 0; stop := 3 |} in
  let t1 := {| index := 1; start := 4; stop := 7 |} in
  (forall s', fetchAll Examples.parsers w "file.bin" "http://example.com/pub/file.bin"
                [t0; t1] Examples.emptyDisk = Done tt s'
              <-> fetchAll Examples.parsers w "file.bin" "http://example.com/pub/file.bin"
                    [t1; t0] Examples.emptyDisk = Done tt s')
  /\ ((exists e s', fetchAll Examples.parsers w "file.bin"
                      "http://example.com/pub/file.bin" [t0; t1] Examples.emptyDisk
                    = Panicked e s')
      <-> (exists e s', fetchAll Examples.parsers w "file.bin"
                          "http://example.com/pub/file.bin" [t1; t0] Examples.emptyDisk
                        = Panicked e s')).
Proof.
  apply (fetch_order_is_immaterial Examples.parsers
           (Examples.world (Examples.probeHeader true "8" []) 206 None)
           "file.bin" "http://example.com/pub/file.bin" {| Go.Path := "/pub/file.bin" |}).
  - reflexivity.
  - apply perm_swap.
  - cbn. apply NoDup_cons. split; [| apply NoDup_singleton].
    intros H. apply list_elem_of_singleton in H. discriminate.
Defined.

(** ** Two calls of [Write] under every schedule *)

Lemma race_step total r0 a b p cs (i : nat) :
  0 <= r0 -> 0 <= a -> 0 <= b -> r0 + a + b < 2 ^ 64 ->
  raceReachable total r0 a b p cs ->
  match cs !! i with
  | None => True
  | Some c => raceReachable total r0 a b (fst (Race.step p c)) (<[i := snd (Race.step p c)]> cs)
  end.
Proof.
  intros Hr Ha Hb Hfit (Hmax & pa & pb & -> & Hin).
  destruct p as [m rb]. cbn [maxBytes readBytes] in *. subst m.
  destruct i as [| [| i]]; [| | exact I];
    cbn [lookup list_lookup]; unfold raceStates in Hin; cbn [In] in Hin;
    repeat (destruct Hin as [Hin | Hin]; [inversion Hin; subst; clear Hin | ]);
    try contradiction;
    (split; [reflexivity |]);
    cbn -[u64 raceStates];
    repeat rewrite u64_small by lia;
    eexists _, _; (split; [reflexivity |]);
    unfold raceStates; cbn [In];
    repeat first [ left; reflexivity | left; f_equal; lia | right ].
Qed.

Lemma race_run total r0 a b (schedule : list nat) : forall p cs,
  0 <= r0 -> 0 <= a -> 0 <= b -> r0 + a + b < 2 ^ 64 ->
  raceReachable total r0 a b p cs ->
  raceReachable total r0 a b (fst (Race.run schedule p cs)) (snd (Race.run schedule p cs)).
Proof.
  induction schedule as [| i rest IH]; intros p cs Hr Ha Hb Hfit Hinv; [exact Hinv |].
  cbn [Race.run]. pose proof (race_step total r0 a b p cs i Hr Ha Hb Hfit Hinv) as Hstep.
  destruct (cs !! i) as [c |]; [| apply IH; assumption].
  destruct (Race.step p c) as [p' c']. apply IH; assumption.
Qed.

(** X23.  Two unguarded calls of [Write] under every schedule.  From a
    counter at [r0], with calls of [a] and [b] bytes and no wrap-around:
    however the reads and writes of the two calls are ordered, once both
    have returned the counter is [r0 + a + b], [r0 + a] or [r0 + b]; it
    never counts more than was written and loses at most one of the two
    updates; [maxBytes] is untouched; and the third outcome, [r0 + a], is
    reached when the first call reads first and writes last. *)
Theorem write_race_outcomes (total r0 a b : Z) (schedule : list nat) :
  0 <= r0 -> 0 <= a -> 0 <= b -> r0 + a + b < 2 ^ 64 ->
  let start := {| maxBytes := total; readBytes := r0 |} in
  let final := Race.run schedule start (Race.fresh [a; b]) in
  (Race.allReturned (snd final) = true ->
   readBytes (fst final) = r0 + a + b
   \/ readBytes (fst final) = r0 + a
   \/ readBytes (fst final) = r0 + b)
  /\ r0 <= readBytes (fst final) <= r0 + a + b
  /\ maxBytes (fst final) = total
  /\ readBytes (fst (Race.run [0; 1; 1; 0]%nat start (Race.fresh [a; b]))) = r0 + a.
Proof.
  intros Hr Ha Hb Hfit start final. subst start final.
  assert (Hstart : raceReachable total r0 a b {| maxBytes := total; readBytes := r0 |}
                     (Race.fresh [a; b])).
  { split; [reflexivity |]. eexists _, _. split; [reflexivity |]. left. reflexivity. }
  pose proof (race_run total r0 a b schedule _ _ Hr Ha Hb Hfit Hstart) as Hend.
  destruct (Race.run schedule _ _) as [p cs]. cbn [fst snd] in *.
  destruct Hend as (Hmax & pa & pb & -> & Hin).
  split; [| split; [| split]].
  - intros Hall. unfold raceStates in Hin. cbn [In] in Hin.
    repeat (destruct Hin as [Hin | Hin];
            [inversion Hin; subst; clear Hin; cbn in Hall; try discriminate; auto |]).
    contradiction.
  - unfold raceStates in Hin. cbn [In] in Hin.
    repeat (destruct Hin as [Hin | Hin]; [inversion Hin; subst; clear Hin; lia |]).
    contradiction.
  - exact Hmax.
  - cbn -[u64]. rewrite (u64_small (r0 + a)) by lia. reflexivity.
Qed.

Lemma write_race_outcomes_witness :
  let start := {| maxBytes := 8; readBytes := 0 |} in
  let final := Race.run [1; 0; 1; 0]%nat start (Race.fresh [4; 4]) in
  (Race.allReturned (snd final) = true ->
   readBytes (fst final) = 0 + 4 + 4
   \/ readBytes (fst final) = 0 + 4
   \/ readBytes (fst final) = 0 + 4)
  /\ 0 <= readBytes (fst final) <= 0 + 4 + 4
  /\ maxBytes (fst final) = 8
  /\ readBytes (fst (Race.run [0; 1; 1; 0]%nat start (Race.fresh [4; 4]))) = 0 + 4.
Proof.
  apply (write_race_outcomes 8 0 4 4 [1; 0; 1; 0]%nat); [lia | lia | lia |].
  vm_compute. reflexivity.
Defined.
